(** * The PostgreSQL adapter of graphql-inspector's data package

    A shallow embedding of
    [packages/data/src/db/postgresql/postgresql-adapter.ts]: the adapter
    that persists execution traces into six relations.

    - JavaScript values are modelled as they are used: strings as
      [string], numbers that hold identifiers and timings as [Z], arrays as
      [list], objects used as maps as association lists in insertion order
      (the order [Object.keys] and [Object.values] enumerate).
    - Every [await this.client(...)...] is a request to the storage gateway.
      An [async] method is a program of requests ([Prog]): it returns,
      throws, or issues one request and continues with the response.
    - [Promise.all] is modelled by its settle rule ([settle]), used both by
      the combinator [all] inside one trace write and by the task pool of
      [writeReport].
    - The store answers a request with a response ([exec]) or rejects it;
      the writes of a report are followed through both ([pool_history]). *)

From Stdlib Require Import List String Ascii ZArith Lia Bool Permutation.
Import ListNotations.
Open Scope string_scope.
Open Scope list_scope.

Set Implicit Arguments.
Set Warnings "-register-all".

(* ================================================================== *)
(** * JavaScript helpers *)

(** [s.split('.')]: the result always has a first component. *)
Fixpoint split_dot (s : string) : string * list string :=
  match s with
  | EmptyString => (EmptyString, [])
  | String c rest =>
      let (h, t) := split_dot rest in
      if Ascii.eqb c "." then (EmptyString, h :: t) else (String c h, t)
  end.

(** [a.join('.')]. *)
Definition join_dot (a : list string) : string := String.concat "." a.

(** [String(x)] for a possibly undefined string inside a template literal. *)
Definition js_str (x : option string) : string :=
  match x with Some s => s | None => "undefined" end.

(** The template literal [`${type}.${field}`]. *)
Definition dotted (type field : string) : string :=
  String.append type (String.append "." field).

(** An object used as a map from string keys.  None of the keys built by
    the adapter is an array index (each contains a dot), so enumeration
    order is insertion order. *)
Definition Obj (V : Type) : Type := list (string * V).

Definition Object_keys {V} (o : Obj V) : list string := map fst o.
Definition Object_values {V} (o : Obj V) : list V := map snd o.

(** [o[k]]: [None] is [undefined]. *)
Fixpoint obj_get {V} (o : Obj V) (k : string) : option V :=
  match o with
  | [] => None
  | (k', v) :: o' => if String.eqb k' k then Some v else obj_get o' k
  end.

(** [{...o, [k]: v}]: an existing key keeps its position. *)
Fixpoint obj_set {V} (o : Obj V) (k : string) (v : V) : Obj V :=
  match o with
  | [] => [(k, v)]
  | (k', v') :: o' =>
      if String.eqb k' k then (k', v) :: o' else (k', v') :: obj_set o' k v
  end.

(** [a.map((x, i) => f(x, i))]. *)
Fixpoint mapi_from {A B} (i : nat) (f : A -> nat -> B) (a : list A) : list B :=
  match a with
  | [] => []
  | x :: a' => f x i :: mapi_from (S i) f a'
  end.

Definition mapi {A B} (f : A -> nat -> B) (a : list A) : list B :=
  mapi_from 0 f a.

(** [a.reduce((acc, x, i) => f(acc, x, i), init)]. *)
Fixpoint reduce_from {A B} (i : nat) (f : B -> A -> nat -> B) (a : list A)
    (acc : B) : B :=
  match a with
  | [] => acc
  | x :: a' => reduce_from (S i) f a' (f acc x i)
  end.

Definition reduce {A B} (f : B -> A -> nat -> B) (a : list A) (init : B) : B :=
  reduce_from 0 f a init.

(** Modelled from the spec: [flatten] of [helpers], which is not among the
    sources; both call sites hand it an array of arrays and use the result
    as the array of their elements. *)
Definition flatten {A} (a : list (list A)) : list A := List.concat a.

(** [a[i] = x] on an array, used by the schedulers below. *)
Fixpoint set_nth {A} (i : nat) (x : A) (a : list A) : list A :=
  match a, i with
  | [], _ => []
  | _ :: a', O => x :: a'
  | y :: a', S i' => y :: set_nth i' x a'
  end.

(* ================================================================== *)
(** * Data model *)

(** A thrown [Error]. *)
Inductive Exn : Type := JsError (message : string).

Module TraceError.
Record t : Type := mk { message : string; json : string }.
End TraceError.

(** A node of the nested execution trace.  [field] and [parentType] are
    optional in the wire format; the root entry is the node that lacks
    them, and its own values are never read by the adapter. *)
Module TraceNode.
Inductive t : Type :=
  mk (parentType field : string) (startTime endTime : Z)
     (errors : list TraceError.t) (children : list t).

Definition parentType (n : t) := let 'mk p _ _ _ _ _ := n in p.
Definition field (n : t) := let 'mk _ f _ _ _ _ := n in f.
Definition startTime (n : t) := let 'mk _ _ s _ _ _ := n in s.
Definition endTime (n : t) := let 'mk _ _ _ e _ _ := n in e.
Definition errors (n : t) := let 'mk _ _ _ _ e _ := n in e.
Definition children (n : t) := let 'mk _ _ _ _ _ c := n in c.
End TraceNode.

Module NormalizedTraceNode.
Record t : Type := mk {
  path : list string;
  field : string;
  parentType : string;
  startTime : Z;
  endTime : Z;
  errors : list TraceError.t
}.
End NormalizedTraceNode.

Definition NormalizedTraceNodeMap : Type := Obj (list NormalizedTraceNode.t).

Module Trace.
Record t : Type := mk {
  query : option string;
  operationName : option string;
  startTime : Z;
  duration : Z;
  parsing : Z;
  validation : Z;
  execution : Z;
  entry : TraceNode.t
}.
End Trace.

Module Report.
Record t : Type := mk { traces : list Trace.t }.
End Report.

(** ** The six relations

    Modelled from the spec: [models.ts] (the table definitions) is not
    among the sources.  The columns are those the adapter writes and the
    data model of the specification lists; a row of a relation with
    generated identifiers is the identifier with the inserted columns. *)

Record Stored (C : Type) : Type := stored { id : Z; cols : C }.

Module OperationModel.
Record t : Type := mk {
  operation : option string;
  name : option string;
  signature : string
}.
End OperationModel.

Module FieldModel.
Record t : Type := mk { type : string; name : option string }.
End FieldModel.

Module OperationFieldModel.
Record t : Type := mk { fieldId : option Z; operationId : Z }.
End OperationFieldModel.

Module OperationTraceModel.
Record t : Type := mk {
  operationId : Z;
  startTime : Z;
  duration : Z;
  parsing : Z;
  validation : Z;
  execution : Z
}.
End OperationTraceModel.

Module FieldTraceModel.
Record t : Type := mk {
  path : string;
  fieldId : option Z;
  operationTraceId : Z;
  startTime : Z;
  endTime : Z
}.
End FieldTraceModel.

Module ErrorModel.
Record t : Type := mk {
  operationTraceId : option Z;
  fieldTraceId : option Z;
  message : string;
  json : string
}.
End ErrorModel.

Module Tables.
Record t : Type := mk {
  Operations : list (Stored OperationModel.t);
  Fields : list (Stored FieldModel.t);
  OperationsFields : list OperationFieldModel.t;
  OperationTraces : list (Stored OperationTraceModel.t);
  FieldTraces : list (Stored FieldTraceModel.t);
  Errors : list (Stored ErrorModel.t)
}.

Definition empty : t := mk [] [] [] [] [] [].
End Tables.

(* ================================================================== *)
(** * Storage gateway *)

(** Modelled from the spec: the gateway offers inserts that return
    generated identifiers and selects by natural key.  Identifiers are
    serial: a relation that never loses rows hands out [length + 1]. *)
Definition next_id {C} (tbl : list (Stored C)) : Z := (Z.of_nat (List.length tbl) + 1)%Z.

Fixpoint insert_rows {C} (tbl : list (Stored C)) (rows : list C)
    : list Z * list (Stored C) :=
  match rows with
  | [] => ([], tbl)
  | c :: rows' =>
      let i := next_id tbl in
      let (ids, tbl') := insert_rows (tbl ++ [stored i c]) rows' in
      (i :: ids, tbl')
  end.

Definition opt_string_eqb (a b : option string) : bool :=
  match a, b with
  | Some x, Some y => String.eqb x y
  | None, None => true
  | _, _ => false
  end.

(** The requests the adapter issues, indexed by the type of their
    response.  A one-row [insert(...).returning('id')] resolves to the
    array holding the generated identifier; its response here is that
    identifier, which is what the adapter destructures. *)
Inductive Req : Type -> Type :=
| SelectOperationIds (signature : string) : Req (list Z)
| InsertOperation (row : OperationModel.t) : Req Z
| SelectFieldIds (type : string) (name : option string) : Req (list Z)
| InsertField (row : FieldModel.t) : Req Z
| InsertOperationsFields (rows : list OperationFieldModel.t) : Req unit
| InsertOperationTrace (row : OperationTraceModel.t) : Req Z
| InsertFieldTraces (rows : list FieldTraceModel.t) : Req (list Z)
| InsertErrors (rows : list ErrorModel.t) : Req unit
| SelectFields : Req (list (Stored FieldModel.t))
| SelectOperations : Req (list (Stored OperationModel.t))
| SelectOperationTraces : Req (list (Stored OperationTraceModel.t))
| SelectFieldTraces : Req (list (Stored FieldTraceModel.t))
| SelectErrors : Req (list (Stored ErrorModel.t)).

Definition has_signature (s : string) (r : Stored OperationModel.t) : bool :=
  String.eqb (OperationModel.signature (cols r)) s.

Definition is_field (type : string) (name : option string)
    (r : Stored FieldModel.t) : bool :=
  String.eqb (FieldModel.type (cols r)) type
  && opt_string_eqb (FieldModel.name (cols r)) name.

(** Modelled from the spec: how the store answers a request.  A select
    returns the identifiers of the matching rows, oldest first; an insert
    appends its rows and returns their identifiers in the order of the
    rows; an insert of no row changes nothing; a name that is undefined is
    stored, and matched, as no name.  [exec] is the answer to a request
    that the store serves, and [run] below the run of a program each of
    whose requests is served; a request that the store rejects is the
    event [Reject] of a task pool. *)
Definition exec {R} (q : Req R) (db : Tables.t) : R * Tables.t :=
  let 'Tables.mk ops flds ofs ots fts errs := db in
  match q in Req R return R * Tables.t with
  | SelectOperationIds s =>
      (map (@id _) (filter (has_signature s) ops), db)
  | InsertOperation row =>
      (next_id ops, Tables.mk (ops ++ [stored (next_id ops) row]) flds ofs ots fts errs)
  | SelectFieldIds type name =>
      (map (@id _) (filter (is_field type name) flds), db)
  | InsertField row =>
      (next_id flds, Tables.mk ops (flds ++ [stored (next_id flds) row]) ofs ots fts errs)
  | InsertOperationsFields rows =>
      (tt, Tables.mk ops flds (ofs ++ rows) ots fts errs)
  | InsertOperationTrace row =>
      (next_id ots, Tables.mk ops flds ofs (ots ++ [stored (next_id ots) row]) fts errs)
  | InsertFieldTraces rows =>
      let (ids, fts') := insert_rows fts rows in
      (ids, Tables.mk ops flds ofs ots fts' errs)
  | InsertErrors rows =>
      (tt, Tables.mk ops flds ofs ots fts (snd (insert_rows errs rows)))
  | SelectFields => (flds, db)
  | SelectOperations => (ops, db)
  | SelectOperationTraces => (ots, db)
  | SelectFieldTraces => (fts, db)
  | SelectErrors => (errs, db)
  end.

(* ================================================================== *)
(** * Asynchronous programs *)

Inductive Prog (A : Type) : Type :=
| Ret (a : A)
| Throw (e : Exn)
| Vis {R : Type} (q : Req R) (k : R -> Prog A).

Arguments Ret {A} a.
Arguments Throw {A} e.
Arguments Vis {A R} q k.

Fixpoint bind {A B} (m : Prog A) (f : A -> Prog B) : Prog B :=
  match m with
  | Ret a => f a
  | Throw e => Throw e
  | Vis q k => Vis q (fun r => bind (k r) f)
  end.

(** [await] of one gateway request. *)
Definition await {R} (q : Req R) : Prog R := Vis q Ret.

Declare Scope prog_scope.
Delimit Scope prog_scope with prog.
Notation "x <- m ;; k" := (bind m (fun x => k))
  (at level 61, m at next level, right associativity) : prog_scope.
Notation "m ;; k" := (bind m (fun _ => k))
  (at level 61, right associativity) : prog_scope.
Open Scope prog_scope.

(** A program run alone against the store, to the end. *)
Fixpoint run {A} (p : Prog A) (db : Tables.t) : (Exn + A) * Tables.t :=
  match p with
  | Ret a => (inr a, db)
  | Throw e => (inl e, db)
  | Vis q k => let (r, db') := exec q db in run (k r) db'
  end.

(** ** [Promise.all]

    The promise of [Promise.all] is rejected by the first input promise
    that is rejected (the first in array order among those already
    rejected), and fulfilled once all are fulfilled. *)

Definition thrown {A} (p : Prog A) : option Exn :=
  match p with Throw e => Some e | _ => None end.

Definition returned {A} (p : Prog A) : option A :=
  match p with Ret a => Some a | _ => None end.

Fixpoint first_thrown {A} (ps : list (Prog A)) : option Exn :=
  match ps with
  | [] => None
  | p :: ps' =>
      match thrown p with Some e => Some e | None => first_thrown ps' end
  end.

Fixpoint all_returned {A} (ps : list (Prog A)) : option (list A) :=
  match ps with
  | [] => Some []
  | p :: ps' =>
      match returned p, all_returned ps' with
      | Some a, Some l => Some (a :: l)
      | _, _ => None
      end
  end.

Definition settle {A} (ps : list (Prog A)) : option (Exn + list A) :=
  match first_thrown ps with
  | Some e => Some (inl e)
  | None =>
      match all_returned ps with
      | Some l => Some (inr l)
      | None => None
      end
  end.

(** The tasks one after the other, in array order. *)
Fixpoint all_in_order {A} (ps : list (Prog A)) : Prog (list A) :=
  match ps with
  | [] => Ret []
  | p :: ps' => x <- p ;; l <- all_in_order ps' ;; Ret (x :: l)
  end.

(** [await Promise.all(ps)] as one program.  The tasks' requests reach the
    store in an order the adapter does not control: [sched] names, request
    after request, the task whose pending request is served next; when it
    runs out the remaining tasks are served in array order.  When the
    result is a rejection, what the other tasks would still request is not
    part of the program returned; the tasks of [ensureFieldIdMap], the one
    caller, all throw before their first request or never throw. *)
Fixpoint all {A} (sched : list nat) (ps : list (Prog A)) : Prog (list A) :=
  match settle ps with
  | Some (inl e) => Throw e
  | Some (inr l) => Ret l
  | None =>
      match sched with
      | [] => all_in_order ps
      | i :: sched' =>
          match nth_error ps i with
          | Some (Vis q k) => Vis q (fun r => all sched' (set_nth i (k r) ps))
          | _ => all sched' ps
          end
      end
  end.

(** The tasks started by one [Promise.all] whose promise the caller
    awaits, together with the store they share. *)
Module Pool.
Record t : Type := mk {
  store : Tables.t;
  tasks : list (Prog unit);
  promise : option (Exn + unit)
}.
End Pool.

Definition settle_void (ps : list (Prog unit)) : option (Exn + unit) :=
  match settle ps with
  | Some (inl e) => Some (inl e)
  | Some (inr _) => Some (inr tt)
  | None => None
  end.

(** The store serves the pending request of task [i]. *)
Definition pool_step (i : nat) (p : Pool.t) : Pool.t :=
  match nth_error (Pool.tasks p) i with
  | Some (Vis q k) =>
      let (r, db') := exec q (Pool.store p) in
      let tasks' := set_nth i (k r) (Pool.tasks p) in
      Pool.mk db' tasks'
        (match Pool.promise p with
         | Some s => Some s
         | None => settle_void tasks'
         end)
  | _ => p
  end.

Definition pool_run (sched : list nat) (p : Pool.t) : Pool.t :=
  fold_left (fun p i => pool_step i p) sched p.

Definition settled {A} (p : Prog A) : bool :=
  match p with Vis _ _ => false | _ => true end.

(** What the store does next for the tasks of a pool: it serves the
    pending request of task [i], or it rejects that request with [e]. *)
Inductive Event : Type :=
| Serve (i : nat)
| Reject (i : nat) (e : Exn).

Definition task_of (ev : Event) : nat :=
  match ev with Serve i => i | Reject i _ => i end.

(** The store rejects the pending request of task [i] with [e]: the
    [await] of that request throws [e].  No [await] of the adapter is
    inside a [try] and no promise of it has a [catch], so the task throws
    [e]; what it has inserted before stays, and the rejected request
    leaves the store as it is.  When the request is a field lookup of
    [ensureFieldIdMap], the lookups of the other pairs, which
    [Promise.all] no longer waits for, are not followed further, as in
    [all]. *)
Definition pool_reject (i : nat) (e : Exn) (p : Pool.t) : Pool.t :=
  match nth_error (Pool.tasks p) i with
  | Some (Vis _ _) =>
      let tasks' := set_nth i (Throw e) (Pool.tasks p) in
      Pool.mk (Pool.store p) tasks'
        (match Pool.promise p with
         | Some s => Some s
         | None => settle_void tasks'
         end)
  | _ => p
  end.

Definition pool_event (ev : Event) (p : Pool.t) : Pool.t :=
  match ev with
  | Serve i => pool_step i p
  | Reject i e => pool_reject i e p
  end.

(** The pool after the events of [history], the oldest first. *)
Definition pool_history (history : list Event) (p : Pool.t) : Pool.t :=
  fold_left (fun p ev => pool_event ev p) history p.

(* ================================================================== *)
(** * Collaborators of the adapter that are not among the sources *)

Module Normalize.

(** Modelled from the spec: the key of [normalizeTraceNode] under which a
    node is filed, ["type.field"]. *)
Definition key (n : NormalizedTraceNode.t) : string :=
  dotted (NormalizedTraceNode.parentType n) (NormalizedTraceNode.field n).

(** Modelled from the spec: the traversal of [normalizeTraceNode], a
    pre-order visit of one node and its descendants, children in source
    order; [path] is the path of the parent. *)
Fixpoint visit (path : list string) (n : TraceNode.t)
    : list NormalizedTraceNode.t :=
  match n with
  | TraceNode.mk parentType field startTime endTime errors children =>
      let p := path ++ [field] in
      NormalizedTraceNode.mk p field parentType startTime endTime errors
        :: flat_map (visit p) children
  end.

(** Modelled from the spec: the pre-order traversal of the trace tree
    below the root entry, which [normalizeTraceNode] performs. *)
Definition preorder (entry : TraceNode.t) : list NormalizedTraceNode.t :=
  flat_map (visit []) (TraceNode.children entry).

(** Modelled from the spec: how [normalizeTraceNode] files a node,
    [map[key] = (map[key] || []).concat(node)]. *)
Definition collect (m : NormalizedTraceNodeMap) (n : NormalizedTraceNode.t)
    : NormalizedTraceNodeMap :=
  obj_set m (key n)
    (match obj_get m (key n) with Some l => l ++ [n] | None => [n] end).

(** Modelled from the spec: [normalizeTraceNode] of [normalize/trace],
    which is not among the sources.  A full pre-order traversal below the
    root entry yields, for every node, its path from the root, its owning
    type and field name, its timing window and its own errors; the map
    keyed by ["type.field"] keeps every occurrence of a key, in traversal
    order, under that key. *)
Definition normalizeTraceNode (entry : TraceNode.t) : NormalizedTraceNodeMap :=
  fold_left collect (preorder entry) [].

(** Modelled from the spec: [operationSignature] of
    [normalize/operation], which is not among the sources.  The
    signature is a function of the document and the operation name, and
    its computation fails for a trace that lacks either.  How the
    document is normalised is not described: the document stands for
    itself here. *)
Definition operationSignature (document operationName : option string)
    : Exn + string :=
  match document, operationName with
  | Some d, Some n => inr (String.append n (String.append "#" d))
  | _, _ => inl (JsError "Cannot compute an operation signature")
  end.

End Normalize.

(* ================================================================== *)
(** * The adapter *)

(** [debug?: boolean]: an object may have no property [debug] ([None]),
    or have it with the value [undefined] ([Some None]) or with a boolean. *)
Record PostgreSQLAdapterConfig : Type := mkConfig {
  connection : string;
  debug : option (option bool)
}.

(** The connection handle made by [knex(...)]. *)
Inductive Knex : Type := knex (client_name : string) (conn : string).

Record PostgreSQLAdapter : Type := mkAdapter {
  config : PostgreSQLAdapterConfig;
  _client : option Knex
}.

(** [{debug: false, ...config}]: the spread copies every own property of
    [config] over the default, also a [debug] that holds [undefined];
    [_client] is not assigned. *)
Definition constructor (cfg : PostgreSQLAdapterConfig) : PostgreSQLAdapter :=
  mkAdapter
    (mkConfig (connection cfg)
       (match debug cfg with
        | Some value => Some value
        | None => Some (Some false)
        end))
    None.

(** [init]: the assignment of [_client].  [createTables] is not among the
    sources; the six relations of the store exist throughout. *)
Definition init (self : PostgreSQLAdapter) : PostgreSQLAdapter :=
  mkAdapter (config self) (Some (knex "pg" (connection (config self)))).

(** The getter [client]. *)
Definition client (self : PostgreSQLAdapter) : Prog Knex :=
  match _client self with
  | None => Throw (JsError "Remember to init()")
  | Some c => Ret c
  end.

(** A call that may throw before the first request. *)
Definition attempt {A} (r : Exn + A) : Prog A :=
  match r with inl e => Throw e | inr a => Ret a end.

Definition readFields (self : PostgreSQLAdapter) : Prog (list (Stored FieldModel.t)) :=
  _ <- client self ;; await SelectFields.

Definition readOperations (self : PostgreSQLAdapter)
    : Prog (list (Stored OperationModel.t)) :=
  _ <- client self ;; await SelectOperations.

Definition readOperationTraces (self : PostgreSQLAdapter)
    : Prog (list (Stored OperationTraceModel.t)) :=
  _ <- client self ;; await SelectOperationTraces.

Definition readFieldTraces (self : PostgreSQLAdapter)
    : Prog (list (Stored FieldTraceModel.t)) :=
  _ <- client self ;; await SelectFieldTraces.

Definition readErrors (self : PostgreSQLAdapter) : Prog (list (Stored ErrorModel.t)) :=
  _ <- client self ;; await SelectErrors.

(** [i.split('.') as [string, string]], destructured as [[type, field]]:
    [field] is undefined when the key holds no dot. *)
Definition typeFieldPair (i : string) : string * option string :=
  let (type, rest) := split_dot i in (type, hd_error rest).

(** The body of the [async] arrow of [ensureFieldIdMap]: look the pair up,
    insert it when no row is found. *)
Definition ensureFieldId (self : PostgreSQLAdapter) (pair : string * option string)
    : Prog Z :=
  let (type, field) := pair in
  _ <- client self ;;
  found <- await (SelectFieldIds type field) ;;
  match found with
  | fieldResult :: _ => Ret fieldResult
  | [] =>
      _ <- client self ;;
      await (InsertField (FieldModel.mk type field))
  end.

(** [ids[i]], undefined out of range. *)
Definition at_index {A} (a : list A) (i : nat) : option A := nth_error a i.

Definition fieldIdMap_of (typeFieldPairs : list (string * option string))
    (ids : list Z) : Obj (option Z) :=
  reduce
    (fun acc (pair : string * option string) i =>
       let (type, field) := pair in
       obj_set acc (dotted type (js_str field)) (at_index ids i))
    typeFieldPairs [].

Definition ensureFieldIdMap (sched : list nat) (self : PostgreSQLAdapter)
    (traceNodeMap : NormalizedTraceNodeMap) : Prog (Obj (option Z)) :=
  let typeFieldPairs := map typeFieldPair (Object_keys traceNodeMap) in
  ids <- all sched (map (ensureFieldId self) typeFieldPairs) ;;
  Ret (fieldIdMap_of typeFieldPairs ids).

(** [fieldIdMap[key]]: undefined for a key the map lacks. *)
Definition field_id (fieldIdMap : Obj (option Z)) (key : string) : option Z :=
  match obj_get fieldIdMap key with Some v => v | None => None end.

Definition has_errors (node : NormalizedTraceNode.t) : bool :=
  negb (Nat.eqb (List.length (NormalizedTraceNode.errors node)) 0).

Definition fieldTrace_of (fieldIdMap : Obj (option Z)) (operationTraceId : Z)
    (node : NormalizedTraceNode.t) : FieldTraceModel.t :=
  let fieldId :=
    field_id fieldIdMap
      (dotted (NormalizedTraceNode.parentType node)
              (NormalizedTraceNode.field node)) in
  FieldTraceModel.mk
    (join_dot (NormalizedTraceNode.path node))
    fieldId
    operationTraceId
    (NormalizedTraceNode.startTime node)
    (NormalizedTraceNode.endTime node).

Definition operationError_of (operationTraceId : Z) (error : TraceError.t)
    : ErrorModel.t :=
  ErrorModel.mk (Some operationTraceId) None
    (TraceError.message error) (TraceError.json error).

Definition fieldErrors_of (fieldTraceIds : list Z)
    (node : NormalizedTraceNode.t) (i : nat) : list ErrorModel.t :=
  let fieldTraceId := at_index fieldTraceIds i in
  map (fun error =>
         ErrorModel.mk None fieldTraceId
           (TraceError.message error) (TraceError.json error))
      (NormalizedTraceNode.errors node).

Section Adapter.

(** The two collaborators are parameters of the adapter: what is proved
    of [writeTrace] holds whatever they compute. *)
Variable operationSignature : option string -> option string -> Exn + string.
Variable normalizeTraceNode : TraceNode.t -> NormalizedTraceNodeMap.

(** [sched] is the order in which the store serves the field lookups of
    [ensureFieldIdMap].  Inserting an empty array of rows is no request
    to the store that changes it.  The calls of [debug] only log. *)
Definition writeTrace (sched : list nat) (self : PostgreSQLAdapter)
    (trace : Trace.t) : Prog unit :=
  signature <-
    attempt (operationSignature (Trace.query trace) (Trace.operationName trace)) ;;
  _ <- client self ;;
  found <- await (SelectOperationIds signature) ;;
  let existingOperation := hd_error found in
  operationId <-
    match existingOperation with
    | Some existing => Ret existing
    | None =>
        _ <- client self ;;
        await (InsertOperation
                 (OperationModel.mk (Trace.query trace)
                    (Trace.operationName trace) signature))
    end ;;
  let traceNodeMap := normalizeTraceNode (Trace.entry trace) in
  fieldIdMap <- ensureFieldIdMap sched self traceNodeMap ;;
  _ <-
    match existingOperation with
    | Some _ => Ret tt
    | None =>
        _ <- client self ;;
        await (InsertOperationsFields
                 (map (fun fieldId => OperationFieldModel.mk fieldId operationId)
                      (Object_values fieldIdMap)))
    end ;;
  _ <- client self ;;
  operationTraceId <-
    await (InsertOperationTrace
             (OperationTraceModel.mk operationId
                (Trace.startTime trace) (Trace.duration trace)
                (Trace.parsing trace) (Trace.validation trace)
                (Trace.execution trace))) ;;
  let nodes := flatten (Object_values traceNodeMap) in
  _ <- client self ;;
  fieldTraceIds <-
    await (InsertFieldTraces (map (fieldTrace_of fieldIdMap operationTraceId) nodes)) ;;
  _ <-
    match TraceNode.errors (Trace.entry trace) with
    | [] => Ret tt
    | errors =>
        _ <- client self ;;
        await (InsertErrors (map (operationError_of operationTraceId) errors))
    end ;;
  _ <- client self ;;
  await (InsertErrors
           (flatten (mapi (fieldErrors_of fieldTraceIds)
                          (filter has_errors nodes)))).

(** [writeReport]: the tasks made by [report.traces.map(...)], each run
    up to its first request, and the promise of [Promise.all] that the
    method awaits.  [scheds i] is the order in which the store serves
    the field lookups of trace [i]. *)
Definition writeReport (scheds : nat -> list nat) (self : PostgreSQLAdapter)
    (report : Report.t) (db : Tables.t) : Pool.t :=
  let tasks :=
    mapi (fun trace i => writeTrace (scheds i) self trace)
         (Report.traces report) in
  Pool.mk db tasks (settle_void tasks).

End Adapter.

(* ================================================================== *)
(** * Vocabulary of the statements *)

(** The rows a batch insert adds to a relation that holds [n] rows. *)
Definition number_from {C} (n : nat) (rows : list C) : list (Stored C) :=
  mapi_from n (fun c i => stored (Z.of_nat i + 1) c) rows.

(** Every request of [p] satisfies [P], every exception it can throw
    satisfies [T]. *)
Fixpoint Safe (P : forall R, Req R -> Prop) (T : Exn -> Prop) {A}
    (p : Prog A) : Prop :=
  match p with
  | Ret _ => True
  | Throw e => T e
  | Vis q k => P _ q /\ forall r, Safe P T (k r)
  end.

(** A lookup or an insert in [Fields], for one of the pairs [ps]. *)
Definition field_request (ps : list (string * option string)) (R : Type)
    (q : Req R) : Prop :=
  match q with
  | SelectFieldIds type name => In (type, name) ps
  | InsertField row => In (FieldModel.type row, FieldModel.name row) ps
  | _ => False
  end.

(** [db'] differs from [db] by rows added to [Fields] only. *)
Definition fields_grown (db db' : Tables.t) : Prop :=
  Tables.Operations db' = Tables.Operations db
  /\ Tables.OperationsFields db' = Tables.OperationsFields db
  /\ Tables.OperationTraces db' = Tables.OperationTraces db
  /\ Tables.FieldTraces db' = Tables.FieldTraces db
  /\ Tables.Errors db' = Tables.Errors db
  /\ exists new, Tables.Fields db' = Tables.Fields db ++ new.

(** No dot in a name. *)
Fixpoint dot_free (s : string) : bool :=
  match s with
  | EmptyString => true
  | String c rest => negb (Ascii.eqb c ".") && dot_free rest
  end.

(** A pair of a type and a field name: the key it is filed under, what
    field resolution looks up when the key splits into the pair again, and
    the condition under which it does. *)
Definition key_of_pair (p : string * string) : string := dotted (fst p) (snd p).

Definition as_looked_up (p : string * string) : string * option string :=
  (fst p, Some (snd p)).

Definition dot_free_pair (p : string * string) : Prop :=
  dot_free (fst p) = true /\ dot_free (snd p) = true.

(** The Field rows that hold a pair. *)
Definition field_rows (pair : string * option string) (db : Tables.t)
    : list (Stored FieldModel.t) :=
  filter (is_field (fst pair) (snd pair)) (Tables.Fields db).

(** What looking a pair up, and inserting it when it is not found, comes
    to between the stores [db] and [db']: either the pair had rows, their
    first identifier is [i] and its rows are the same; or it had none and
    now has exactly one, generated as [i]. *)
Definition resolved (db db' : Tables.t) (pair : string * option string) (i : Z)
    : Prop :=
  (hd_error (map (@id _) (field_rows pair db)) = Some i
   /\ field_rows pair db' = field_rows pair db)
  \/ (field_rows pair db = []
      /\ field_rows pair db' = [stored i (FieldModel.mk (fst pair) (snd pair))]).

(** Where the lookup-or-insert of a pair stands among the interleaved
    tasks of one resolution: before its lookup, before its insert, or
    done.  [db0] is the store at the start, [db] the current one. *)
Definition stage (db0 db : Tables.t) (pair : string * option string)
    (task : Prog Z) : Prop :=
  match task with
  | Ret i => resolved db0 db pair i
  | Throw _ => False
  | Vis q k =>
      match q in Req R return (R -> Prog Z) -> Prop with
      | SelectFieldIds type name =>
          fun k =>
            (type, name) = pair
            /\ field_rows pair db = field_rows pair db0
            /\ forall found,
                 k found
                 = match found with
                   | fieldResult :: _ => Ret fieldResult
                   | [] => await (InsertField (FieldModel.mk type name))
                   end
      | InsertField row =>
          fun k =>
            row = FieldModel.mk (fst pair) (snd pair)
            /\ field_rows pair db = []
            /\ field_rows pair db0 = []
            /\ forall i, k i = Ret i
      | _ => fun _ => False
      end k
  end.

Definition stages (db0 : Tables.t) (pairs : list (string * option string))
    (tasks : list (Prog Z)) (db : Tables.t) : Prop :=
  List.length tasks = List.length pairs
  /\ forall j pair task,
       nth_error pairs j = Some pair -> nth_error tasks j = Some task ->
       stage db0 db pair task.

(** The distinct elements of a list of keys, each at its first occurrence. *)
Fixpoint distinct (ks : list string) : list string :=
  match ks with
  | [] => []
  | k :: ks' => k :: filter (fun k' => negb (String.eqb k k')) (distinct ks')
  end.

Definition has_key (k : string) (n : NormalizedTraceNode.t) : bool :=
  String.eqb (Normalize.key n) k.

(** An [Error] row owned by an operation trace only, by a field trace only. *)
Definition owned_by_operation_trace (operationTraceId : Z) (e : Stored ErrorModel.t)
    : Prop :=
  ErrorModel.operationTraceId (cols e) = Some operationTraceId
  /\ ErrorModel.fieldTraceId (cols e) = None.

Definition owned_by_field_trace (ids : list Z) (e : Stored ErrorModel.t) : Prop :=
  ErrorModel.operationTraceId (cols e) = None
  /\ exists fieldTraceId,
       ErrorModel.fieldTraceId (cols e) = Some fieldTraceId /\ In fieldTraceId ids.

Definition exactly_one_owner (e : Stored ErrorModel.t) : Prop :=
  (ErrorModel.operationTraceId (cols e) <> None
   /\ ErrorModel.fieldTraceId (cols e) = None)
  \/ (ErrorModel.operationTraceId (cols e) = None
      /\ ErrorModel.fieldTraceId (cols e) <> None).

(** Whether an operation with this signature is stored. *)
Definition known (signature : string) (db : Tables.t) : bool :=
  existsb (has_signature signature) (Tables.Operations db).

(** The identifier the operation of [trace] resolves to, and the store
    after its resolution. *)
Definition resolved_operation (signature : string) (trace : Trace.t)
    (db : Tables.t) : Z * Tables.t :=
  match hd_error (map (@id _) (filter (has_signature signature) (Tables.Operations db))) with
  | Some existing => (existing, db)
  | None =>
      let operationId := next_id (Tables.Operations db) in
      (operationId,
       Tables.mk
         (Tables.Operations db
            ++ [stored operationId
                  (OperationModel.mk (Trace.query trace)
                     (Trace.operationName trace) signature)])
         (Tables.Fields db) (Tables.OperationsFields db)
         (Tables.OperationTraces db) (Tables.FieldTraces db) (Tables.Errors db))
  end.

(** The rows one trace write adds once its fields are resolved: [dbf] is
    the store at that point, [nodes] the flat node sequence. *)
Definition operationTrace_row (operationId : Z) (trace : Trace.t)
    (dbf : Tables.t) : Stored OperationTraceModel.t :=
  stored (next_id (Tables.OperationTraces dbf))
    (OperationTraceModel.mk operationId
       (Trace.startTime trace) (Trace.duration trace)
       (Trace.parsing trace) (Trace.validation trace) (Trace.execution trace)).

Definition fieldTrace_rows (fieldIdMap : Obj (option Z))
    (nodes : list NormalizedTraceNode.t) (dbf : Tables.t)
    : list (Stored FieldTraceModel.t) :=
  number_from (List.length (Tables.FieldTraces dbf))
    (map (fieldTrace_of fieldIdMap (next_id (Tables.OperationTraces dbf))) nodes).

Definition operationError_rows (trace : Trace.t) (dbf : Tables.t)
    : list (Stored ErrorModel.t) :=
  number_from (List.length (Tables.Errors dbf))
    (map (operationError_of (next_id (Tables.OperationTraces dbf)))
         (TraceNode.errors (Trace.entry trace))).

Definition fieldError_rows (fieldIdMap : Obj (option Z)) (trace : Trace.t)
    (nodes : list NormalizedTraceNode.t) (dbf : Tables.t)
    : list (Stored ErrorModel.t) :=
  number_from
    (List.length (Tables.Errors dbf)
     + List.length (TraceNode.errors (Trace.entry trace)))
    (flatten
       (mapi (fieldErrors_of (map (@id _) (fieldTrace_rows fieldIdMap nodes dbf)))
             (filter has_errors nodes))).

Definition written (isNew : bool) (operationId : Z) (fieldIdMap : Obj (option Z))
    (trace : Trace.t) (nodes : list NormalizedTraceNode.t) (dbf : Tables.t)
    : Tables.t :=
  Tables.mk
    (Tables.Operations dbf)
    (Tables.Fields dbf)
    (Tables.OperationsFields dbf
       ++ (if isNew
           then map (fun fieldId => OperationFieldModel.mk fieldId operationId)
                    (Object_values fieldIdMap)
           else []))
    (Tables.OperationTraces dbf ++ [operationTrace_row operationId trace dbf])
    (Tables.FieldTraces dbf ++ fieldTrace_rows fieldIdMap nodes dbf)
    (Tables.Errors dbf
       ++ operationError_rows trace dbf
       ++ fieldError_rows fieldIdMap trace nodes dbf).

(** [later db db']: [db'] is the store after any number of trace writes
    that returned, one after the other, from [db]. *)
Inductive later
    (operationSignature : option string -> option string -> Exn + string)
    (normalizeTraceNode : TraceNode.t -> NormalizedTraceNodeMap)
    (db : Tables.t) : Tables.t -> Prop :=
| later_now : later operationSignature normalizeTraceNode db db
| later_write db1 db2 sched self trace :
    later operationSignature normalizeTraceNode db db1 ->
    run (writeTrace operationSignature normalizeTraceNode sched self trace) db1
    = (inr tt, db2) ->
    later operationSignature normalizeTraceNode db db2.

(** Task [j] of the pool has returned or thrown. *)
Definition settled_at (p : Pool.t) (j : nat) : Prop :=
  match nth_error (Pool.tasks p) j with
  | Some t => settled t = true
  | None => True
  end.

(** The invariant that ties the promise awaited by [writeReport] to its
    tasks. *)
Definition promise_agrees (p : Pool.t) : Prop :=
  match Pool.promise p with
  | None =>
      first_thrown (Pool.tasks p) = None
      /\ existsb (fun t => negb (settled t)) (Pool.tasks p) = true
  | Some (inr _) => Forall (fun t => t = Ret tt) (Pool.tasks p)
  | Some (inl e) => In (Throw e) (Pool.tasks p)
  end.

(** [follows t0 t]: [t] is what is left of the task [t0] once the store
    has answered some of its requests, one after the other, each with a
    response or with a rejection. *)
Inductive follows {A} (t0 : Prog A) : Prog A -> Prop :=
| follows_start : follows t0 t0
| follows_served {R} (q : Req R) (k : R -> Prog A) (r : R) :
    follows t0 (Vis q k) -> follows t0 (k r)
| follows_rejected {R} (q : Req R) (k : R -> Prog A) (e : Exn) :
    follows t0 (Vis q k) -> follows t0 (Throw e).

(* ================================================================== *)
(** * Concrete traces *)

Module Example.

(** An adapter on which [init] has been called, and one on which it has
    not. *)
Definition fresh : PostgreSQLAdapter :=
  constructor (mkConfig "postgres://localhost/traces" None).

Definition adapter : PostgreSQLAdapter := init fresh.

(** The trace of [query Q { user { name } }]: the entry has no error,
    [user] has none, [user.name] has one. *)
Definition name_node : TraceNode.t :=
  TraceNode.mk "User" "name" 2 3 [TraceError.mk "boom" "{}"] [].

Definition user_node : TraceNode.t :=
  TraceNode.mk "Query" "user" 1 4 [] [name_node].

Definition entry : TraceNode.t := TraceNode.mk "" "" 0 5 [] [user_node].

Definition trace : Trace.t :=
  Trace.mk (Some "query Q { user { name } }") (Some "Q") 0 5 1 1 1 entry.

(** A trace without a query. *)
Definition malformed : Trace.t := Trace.mk None (Some "Q") 0 5 1 1 1 entry.

(** Two items of a list, each with the same field below it: the key
    [Item.name] occurs at two positions of the tree. *)
Definition item (field : string) : TraceNode.t :=
  TraceNode.mk "Query" field 1 2 []
    [TraceNode.mk "Item" "name" 1 2 [] []].

Definition items : TraceNode.t :=
  TraceNode.mk "" "" 0 5 [] [item "first"; item "second"].

(** Two fields of one type whose names hold a dot. *)
Definition dotted_names : NormalizedTraceNodeMap :=
  [(dotted "A" "b.c", []); (dotted "A" "b.d", [])].

End Example.

(* ================================================================== *)
(** * Vocabulary of the further properties *)

(** The key under which [ensureFieldIdMap] files the identifier it
    resolved for the key [i] of the normalized map: the first two
    components of [i], joined again. *)
Definition rebuilt_key (i : string) : string :=
  dotted (fst (typeFieldPair i)) (js_str (snd (typeFieldPair i))).

(** The number of dots of a string. *)
Fixpoint count_dots (s : string) : nat :=
  match s with
  | EmptyString => 0
  | String c rest => (if Ascii.eqb c "." then 1 else 0) + count_dots rest
  end.

(** The Field rows of [new] are rows of the pairs [ps]. *)
Definition rows_of_pairs (ps : list (string * option string))
    (new : list (Stored FieldModel.t)) : Prop :=
  Forall (fun r => In (FieldModel.type (cols r), FieldModel.name (cols r)) ps) new.

Definition is_trace_insert {R} (q : Req R) : bool :=
  match q with InsertOperationTrace _ => true | _ => false end.

(** [Owes n p]: on its way to returning, [p] inserts exactly [n] more
    OperationTrace rows. *)
Fixpoint Owes (n : nat) {A} (p : Prog A) : Prop :=
  match p with
  | Ret _ => n = 0
  | Throw _ => True
  | Vis q k =>
      (is_trace_insert q = true -> 1 <= n)
      /\ forall r, Owes (n - (if is_trace_insert q then 1 else 0)) (k r)
  end.

(** A check that the strings of a list are distinct. *)
Fixpoint no_dupb (l : list string) : bool :=
  match l with
  | [] => true
  | x :: l' => negb (existsb (String.eqb x) l') && no_dupb l'
  end.

Module Further.

(** The trace of another operation that selects the same fields as
    [Example.trace]. *)
Definition other : Trace.t :=
  Trace.mk (Some "query R { user { name } }") (Some "R") 7 5 1 1 1 Example.entry.

(** A trace with a node whose field name holds a dot. *)
Definition dotted_entry : TraceNode.t :=
  TraceNode.mk "" "" 0 5 [] [TraceNode.mk "A" "b.c" 1 2 [] []].

Definition dotted_trace : Trace.t :=
  Trace.mk (Some "query D { x }") (Some "D") 0 5 1 1 1 dotted_entry.

Definition name_of_user : NormalizedTraceNode.t :=
  NormalizedTraceNode.mk ["user"; "name"] "name" "User" 2 3
    [TraceError.mk "boom" "{}"].

Definition dotted_node : NormalizedTraceNode.t :=
  NormalizedTraceNode.mk ["b.c"] "b.c" "A" 1 2 [].

End Further.

(* ================================================================== *)
(** * Lists, strings and objects *)

Unset Implicit Arguments.

Lemma mapi_from_length {A B} (f : A -> nat -> B) (a : list A) (i : nat) :
  List.length (mapi_from i f a) = List.length a.
Proof. revert i; induction a; intros; simpl; auto. Qed.

Lemma mapi_from_app {A B} (f : A -> nat -> B) (a b : list A) (i : nat) :
  mapi_from i f (a ++ b) = mapi_from i f a ++ mapi_from (i + List.length a) f b.
Proof.
  revert i; induction a as [|x a IH]; intros i; simpl.
  - now rewrite Nat.add_0_r.
  - rewrite IH. do 3 f_equal. lia.
Qed.

Lemma mapi_from_nth {A B} (f : A -> nat -> B) (a : list A) (i n : nat) :
  nth_error (mapi_from i f a) n = option_map (fun x => f x (i + n)) (nth_error a n).
Proof.
  revert i n; induction a as [|x a IH]; intros i [|n]; simpl; auto.
  - now rewrite Nat.add_0_r.
  - rewrite IH. now replace (S i + n) with (i + S n) by lia.
Qed.

Lemma set_nth_length {A} (i : nat) (x : A) (a : list A) :
  List.length (set_nth i x a) = List.length a.
Proof. revert i; induction a; intros [|i]; simpl; auto. Qed.

Lemma set_nth_same {A} (i : nat) (x y : A) (a : list A) :
  nth_error a i = Some y -> nth_error (set_nth i x a) i = Some x.
Proof. revert i; induction a; intros [|i]; simpl; intros; try discriminate; auto. Qed.

Lemma set_nth_other {A} (i j : nat) (x : A) (a : list A) :
  i <> j -> nth_error (set_nth i x a) j = nth_error a j.
Proof.
  revert i j; induction a; intros [|i] [|j]; simpl; intros; auto; try congruence.
Qed.

Lemma set_nth_Forall {A} (P : A -> Prop) (i : nat) (x : A) (a : list A) :
  P x -> Forall P a -> Forall P (set_nth i x a).
Proof.
  intros Hx; revert i; induction a; intros [|i] H; simpl; auto;
    inversion H; subst; constructor; auto.
Qed.

Lemma set_nth_In {A} (i : nat) (x y z : A) (a : list A) :
  nth_error a i = Some z -> z <> y -> In y a -> In y (set_nth i x a).
Proof.
  revert i; induction a as [|w a IH]; intros [|i]; simpl; intros Hn Hz Hin;
    try discriminate.
  - injection Hn as ->. destruct Hin; [congruence | auto].
  - destruct Hin; eauto.
Qed.

(** The rows and the identifiers of a batch insert, in closed form. *)
Lemma insert_rows_eq {C} (rows : list C) (tbl : list (Stored C)) :
  insert_rows tbl rows =
  (map (@id C) (number_from (List.length tbl) rows),
   tbl ++ number_from (List.length tbl) rows).
Proof.
  unfold number_from.
  revert tbl; induction rows as [|c rows IH]; intros tbl; simpl.
  - now rewrite app_nil_r.
  - rewrite IH. rewrite length_app, <- app_assoc. simpl.
    unfold next_id. now replace (List.length tbl + 1) with (S (List.length tbl)) by lia.
Qed.

Lemma number_from_length {C} (rows : list C) (n : nat) :
  List.length (number_from n rows) = List.length rows.
Proof. apply mapi_from_length. Qed.

Lemma number_from_cols {C} (rows : list C) (n : nat) :
  map (@cols C) (number_from n rows) = rows.
Proof.
  unfold number_from. revert n; induction rows; intros; simpl; f_equal; auto.
Qed.

(** ** Splitting a key at its dots *)

Lemma split_dot_free (s : string) :
  dot_free s = true -> split_dot s = (s, []).
Proof.
  induction s as [|c s IH]; simpl; auto.
  intros H. apply andb_prop in H as [Hc Hs]. rewrite (IH Hs).
  destruct (Ascii.eqb c "."); [discriminate | reflexivity].
Qed.

Lemma split_dot_dotted (type field : string) :
  dot_free type = true ->
  split_dot (dotted type field) = (type, fst (split_dot field) :: snd (split_dot field)).
Proof.
  unfold dotted. change (String.append "." field) with (String "." field).
  induction type as [|c type IH].
  - intros _. cbn. now destruct (split_dot field).
  - intros H. cbn in H. apply andb_prop in H as [Hc Ht].
    cbn [String.append split_dot]. rewrite (IH Ht).
    destruct (Ascii.eqb c "."); [discriminate | reflexivity].
Qed.

Lemma typeFieldPair_dotted (type field : string) :
  dot_free type = true -> dot_free field = true ->
  typeFieldPair (dotted type field) = (type, Some field).
Proof.
  intros Ht Hf. unfold typeFieldPair.
  rewrite split_dot_dotted, split_dot_free by assumption. reflexivity.
Qed.

(** A key that holds a dot always splits into a type and a field. *)
Lemma typeFieldPair_some (type field : string) :
  exists t f, typeFieldPair (dotted type field) = (t, Some f).
Proof.
  unfold typeFieldPair, dotted.
  change (String.append "." field) with (String "." field).
  induction type as [|c type IH].
  - cbn. destruct (split_dot field) as [h tl]. cbn. eauto.
  - cbn [String.append split_dot].
    destruct (split_dot (String.append type (String "." field))) as [h tl].
    destruct IH as (t & f & IH). injection IH as -> Hf.
    destruct (Ascii.eqb c "."); cbn; eauto.
    destruct tl; [discriminate|]. cbn in *. eauto.
Qed.

(* ================================================================== *)
(** * Programs and [Promise.all] *)

Lemma run_bind {A B} (m : Prog A) (f : A -> Prog B) (db : Tables.t) :
  run (bind m f) db =
  match run m db with
  | (inl e, db') => (inl e, db')
  | (inr a, db') => run (f a) db'
  end.
Proof.
  revert db; induction m as [a|e|R q k IH]; intros db; simpl; auto.
  destruct (exec q db) as [r db']. apply IH.
Qed.

Lemma Safe_weaken (P P' : forall R, Req R -> Prop) (T T' : Exn -> Prop) {A}
    (p : Prog A) :
  (forall R q, P R q -> P' R q) -> (forall e, T e -> T' e) ->
  Safe P T p -> Safe P' T' p.
Proof.
  intros HP HT. induction p as [a|e|R q k IH]; simpl; auto.
  intros [Hq Hk]. split; auto.
Qed.

Lemma Safe_bind (P : forall R, Req R -> Prop) (T : Exn -> Prop) {A B}
    (m : Prog A) (f : A -> Prog B) :
  Safe P T m -> (forall a, Safe P T (f a)) -> Safe P T (bind m f).
Proof.
  intros Hm Hf. induction m as [a|e|R q k IH]; simpl in *; auto.
  destruct Hm as [Hq Hk]. split; auto.
Qed.

Lemma first_thrown_In {A} (ps : list (Prog A)) (e : Exn) :
  first_thrown ps = Some e -> In (Throw e) ps.
Proof.
  induction ps as [|p ps IH]; simpl; [discriminate|].
  destruct p; simpl; auto. intros H; injection H as ->. now left.
Qed.

Lemma first_thrown_none {A} (ps : list (Prog A)) (e : Exn) :
  first_thrown ps = None -> ~ In (Throw e) ps.
Proof.
  induction ps as [|p ps IH]; simpl; auto.
  destruct p; simpl; try discriminate; intros H [H'|H']; try discriminate;
    now apply IH.
Qed.

Lemma all_returned_map {A} (ps : list (Prog A)) (l : list A) :
  all_returned ps = Some l -> ps = map Ret l.
Proof.
  revert l; induction ps as [|p ps IH]; simpl; intros l H.
  - now injection H as <-.
  - destruct p; simpl in H; try discriminate.
    destruct (all_returned ps); [|discriminate].
    injection H as <-. simpl. f_equal. now apply IH.
Qed.

Lemma all_returned_pending {A} (ps : list (Prog A)) :
  first_thrown ps = None -> all_returned ps = None ->
  existsb (fun t => negb (settled t)) ps = true.
Proof.
  induction ps as [|p ps IH]; simpl; [discriminate|].
  destruct p; simpl; try discriminate; auto.
  intros Hf Ha. destruct (all_returned ps); [discriminate|]. auto.
Qed.

Lemma Safe_all_in_order (P : forall R, Req R -> Prop) (T : Exn -> Prop) {A}
    (ps : list (Prog A)) :
  Forall (Safe P T) ps -> Safe P T (all_in_order ps).
Proof.
  induction 1 as [|p ps Hp _ IH]; simpl; auto.
  apply Safe_bind; auto. intros a. apply Safe_bind; simpl; auto.
Qed.

(** [Promise.all] issues the requests of its tasks and no other, and
    throws what one of them throws. *)
Lemma Safe_all (P : forall R, Req R -> Prop) (T : Exn -> Prop) {A}
    (sched : list nat) (ps : list (Prog A)) :
  Forall (Safe P T) ps -> Safe P T (all sched ps).
Proof.
  revert ps; induction sched as [|i sched IH]; intros ps Hps; simpl.
  - unfold settle.
    destruct (first_thrown ps) as [e|] eqn:Ht.
    + apply first_thrown_In in Ht. rewrite Forall_forall in Hps.
      apply (Hps _ Ht).
    + destruct (all_returned ps); simpl; auto. now apply Safe_all_in_order.
  - unfold settle.
    destruct (first_thrown ps) as [e|] eqn:Ht.
    + apply first_thrown_In in Ht. rewrite Forall_forall in Hps.
      apply (Hps _ Ht).
    + destruct (all_returned ps); simpl; auto.
      destruct (nth_error ps i) as [p|] eqn:Hn; auto.
      destruct p as [a|e|R q k]; auto.
      apply nth_error_In in Hn. rewrite Forall_forall in Hps.
      pose proof (Hps _ Hn) as [Hq Hk]. simpl. split; auto.
      intros r. apply IH. apply set_nth_Forall; auto.
      now apply Forall_forall.
Qed.

(** A program that cannot throw returns. *)
Lemma run_returns (P : forall R, Req R -> Prop) {A} (p : Prog A) (db : Tables.t) :
  Safe P (fun _ => False) p -> exists a db', run p db = (inr a, db').
Proof.
  revert db; induction p as [a|e|R q k IH]; simpl; intros db H.
  - eauto.
  - contradiction.
  - destruct H as [_ Hk]. destruct (exec q db) as [r db']. now apply IH.
Qed.

Lemma fields_grown_refl (db : Tables.t) : fields_grown db db.
Proof.
  unfold fields_grown; repeat split; auto. exists []. now rewrite app_nil_r.
Qed.

Lemma fields_grown_trans (a b c : Tables.t) :
  fields_grown a b -> fields_grown b c -> fields_grown a c.
Proof.
  unfold fields_grown.
  intros (H1 & H2 & H3 & H4 & H5 & n1 & H6) (G1 & G2 & G3 & G4 & G5 & n2 & G6).
  repeat split; try congruence.
  exists (n1 ++ n2). now rewrite G6, H6, app_assoc.
Qed.

Lemma exec_field_request ps {R} (q : Req R) (db : Tables.t) :
  field_request ps q -> fields_grown db (snd (exec q db)).
Proof.
  destruct db as [ops flds ofs ots fts errs].
  destruct q; simpl; try contradiction; intros _.
  - apply fields_grown_refl.
  - unfold fields_grown; simpl; repeat split; eauto.
Qed.

(** A program of field requests leaves the five other relations as they
    are and only adds rows to [Fields]. *)
Lemma run_fields_grown ps (T : Exn -> Prop) {A} (p : Prog A) (db : Tables.t) :
  Safe (field_request ps) T p -> fields_grown db (snd (run p db)).
Proof.
  revert db; induction p as [a|e|R q k IH]; simpl; intros db H.
  - apply fields_grown_refl.
  - apply fields_grown_refl.
  - destruct H as [Hq Hk].
    pose proof (exec_field_request ps q db Hq) as Hg.
    destruct (exec q db) as [r db']. simpl in Hg.
    eapply fields_grown_trans; [exact Hg | now apply IH].
Qed.

(** ** Invariants of interleaved tasks *)

Lemma nth_error_app_mid {A} (a b : list A) (x : A) :
  nth_error (a ++ x :: b) (List.length a) = Some x.
Proof. induction a; cbn; auto. Qed.

Lemma set_nth_app_mid {A} (a b : list A) (x y : A) :
  set_nth (List.length a) y (a ++ x :: b) = a ++ y :: b.
Proof. induction a; cbn; auto. now f_equal. Qed.

Section AllInvariant.

Context {A : Type}.
Variable Inv : list (Prog A) -> Tables.t -> Prop.

Hypothesis Inv_step :
  forall ps db i R (q : Req R) k,
    Inv ps db -> nth_error ps i = Some (Vis q k) ->
    Inv (set_nth i (k (fst (exec q db))) ps) (snd (exec q db)).

Lemma all_in_order_invariant (ps : list (Prog A)) :
  forall pre db l db',
    Inv (map Ret pre ++ ps) db ->
    run (all_in_order ps) db = (inr l, db') ->
    Inv (map Ret (pre ++ l)) db'.
Proof.
  induction ps as [|p ps IH]; intros pre db l db' HI Hrun.
  - cbn in Hrun. injection Hrun as <- <-. now rewrite app_nil_r in *.
  - cbn [all_in_order] in Hrun.
    revert db HI Hrun. induction p as [a|e|R q k IHp]; intros db HI Hrun.
    + cbn [bind] in Hrun. rewrite run_bind in Hrun.
      destruct (run (all_in_order ps) db) as [[e|l'] db1] eqn:Hr; [discriminate|].
      cbn in Hrun. injection Hrun as <- <-.
      replace (pre ++ a :: l') with ((pre ++ [a]) ++ l')
        by (now rewrite <- app_assoc).
      eapply IH; [|exact Hr].
      now rewrite map_app, <- app_assoc.
    + cbn in Hrun. discriminate.
    + cbn [bind run] in Hrun.
      pose proof (Inv_step _ _ (List.length (map Ret pre)) _ q k HI
                    (nth_error_app_mid _ _ _)) as Hstep.
      rewrite set_nth_app_mid in Hstep.
      destruct (exec q db) as [r db1]. cbn [fst snd] in Hstep.
      eapply IHp; eauto.
Qed.

(** An invariant of every step of every task holds of what
    [Promise.all] returns, whatever the schedule. *)
Lemma all_invariant (sched : list nat) :
  forall ps db l db',
    Inv ps db -> run (all sched ps) db = (inr l, db') -> Inv (map Ret l) db'.
Proof.
  induction sched as [|i sched IH]; intros ps db l db' HI Hrun;
    cbn [all] in Hrun; unfold settle in Hrun;
    destruct (first_thrown ps) as [e|]; try (cbn in Hrun; discriminate);
    destruct (all_returned ps) as [l0|] eqn:Ha.
  - cbn in Hrun. injection Hrun as <- <-.
    apply all_returned_map in Ha. now subst ps.
  - now apply (all_in_order_invariant ps [] db l db').
  - cbn in Hrun. injection Hrun as <- <-.
    apply all_returned_map in Ha. now subst ps.
  - destruct (nth_error ps i) as [p|] eqn:Hn; [|eapply IH; eauto].
    destruct p as [a|e|R q k]; [eapply IH; eauto | eapply IH; eauto |].
    cbn [run] in Hrun.
    pose proof (Inv_step _ _ _ _ q k HI Hn) as Hstep.
    destruct (exec q db) as [r db1]. cbn [fst snd] in Hstep.
    eapply IH; eauto.
Qed.

End AllInvariant.

(** ** Field resolution *)

Lemma Safe_ensureFieldId (c : Knex) (self : PostgreSQLAdapter)
    (ps : list (string * option string)) (pair : string * option string) :
  _client self = Some c -> In pair ps ->
  Safe (field_request ps) (fun _ => False) (ensureFieldId self pair).
Proof.
  intros Hc Hin. destruct pair as [type field].
  unfold ensureFieldId, client. rewrite Hc. simpl. split; auto.
  intros [|fieldResult found]; simpl; auto.
Qed.

(** Without a client every lookup throws before its first request. *)
Lemma ensureFieldId_no_client (self : PostgreSQLAdapter)
    (pair : string * option string) :
  _client self = None ->
  ensureFieldId self pair = Throw (JsError "Remember to init()").
Proof.
  intros Hc. destruct pair as [type field].
  unfold ensureFieldId, client. now rewrite Hc.
Qed.

Lemma Safe_ensureFieldIdMap (c : Knex) (sched : list nat)
    (self : PostgreSQLAdapter) (traceNodeMap : NormalizedTraceNodeMap) :
  _client self = Some c ->
  Safe (field_request (map typeFieldPair (Object_keys traceNodeMap)))
       (fun _ => False)
       (ensureFieldIdMap sched self traceNodeMap).
Proof.
  intros Hc. unfold ensureFieldIdMap.
  apply Safe_bind; [|simpl; auto].
  apply Safe_all. apply Forall_forall. intros p Hp.
  apply in_map_iff in Hp as (pair & <- & Hin).
  eapply Safe_ensureFieldId; eauto.
Qed.

(** With a client, field resolution returns, whatever the order in which
    the store serves its lookups, and changes [Fields] only. *)
Lemma ensureFieldIdMap_returns (c : Knex) (sched : list nat)
    (self : PostgreSQLAdapter) (traceNodeMap : NormalizedTraceNodeMap)
    (db : Tables.t) :
  _client self = Some c ->
  exists fieldIdMap db',
    run (ensureFieldIdMap sched self traceNodeMap) db = (inr fieldIdMap, db')
    /\ fields_grown db db'.
Proof.
  intros Hc.
  pose proof (Safe_ensureFieldIdMap c sched self traceNodeMap Hc) as Hs.
  destruct (run_returns _ _ db Hs) as (m & db' & Hr).
  exists m, db'. split; auto.
  pose proof (run_fields_grown _ _ _ db Hs) as Hg. now rewrite Hr in Hg.
Qed.

(** ** The interleaved lookups of one resolution *)

Lemma opt_string_eqb_eq (a b : option string) :
  opt_string_eqb a b = true <-> a = b.
Proof.
  destruct a as [x|], b as [y|]; cbn; try (split; congruence).
  rewrite String.eqb_eq. split; congruence.
Qed.

Lemma is_field_true (type : string) (name : option string)
    (r : Stored FieldModel.t) :
  is_field type name r = true <-> cols r = FieldModel.mk type name.
Proof.
  unfold is_field. rewrite andb_true_iff, String.eqb_eq, opt_string_eqb_eq.
  destruct r as [i [t n]]. cbn. split; [intros [-> ->]; reflexivity|].
  intros H; injection H as -> ->. auto.
Qed.

Lemma field_rows_insert_same (pair : string * option string) (i : Z)
    ops flds ofs ots fts errs :
  field_rows pair
    (Tables.mk ops (flds ++ [stored i (FieldModel.mk (fst pair) (snd pair))])
       ofs ots fts errs)
  = field_rows pair (Tables.mk ops flds ofs ots fts errs)
      ++ [stored i (FieldModel.mk (fst pair) (snd pair))].
Proof.
  unfold field_rows. cbn [Tables.Fields]. rewrite filter_app. cbn [filter].
  replace (is_field (fst pair) (snd pair)
             (stored i (FieldModel.mk (fst pair) (snd pair)))) with true; auto.
  symmetry. now apply is_field_true.
Qed.

Lemma field_rows_insert_other (pair pair' : string * option string) (i : Z)
    ops flds ofs ots fts errs :
  pair <> pair' ->
  field_rows pair
    (Tables.mk ops (flds ++ [stored i (FieldModel.mk (fst pair') (snd pair'))])
       ofs ots fts errs)
  = field_rows pair (Tables.mk ops flds ofs ots fts errs).
Proof.
  intros Hne. unfold field_rows. cbn [Tables.Fields].
  rewrite filter_app. cbn [filter].
  destruct (is_field (fst pair) (snd pair)
              (stored i (FieldModel.mk (fst pair') (snd pair')))) eqn:H.
  - apply is_field_true in H. cbn in H. exfalso. apply Hne.
    destruct pair, pair'. cbn in *. congruence.
  - apply app_nil_r.
Qed.

(** A stage depends on the current store through the rows of its pair
    only. *)
Lemma stage_frame (db0 db db1 : Tables.t) (pair : string * option string)
    (task : Prog Z) :
  field_rows pair db1 = field_rows pair db ->
  stage db0 db pair task -> stage db0 db1 pair task.
Proof.
  intros Hf. destruct task as [i|e|R q k]; cbn; auto.
  - unfold resolved. now rewrite Hf.
  - destruct q; auto; now rewrite Hf.
Qed.

Lemma stages_step (db0 : Tables.t) (pairs : list (string * option string)) :
  NoDup pairs ->
  forall ps db i R (q : Req R) k,
    stages db0 pairs ps db -> nth_error ps i = Some (Vis q k) ->
    stages db0 pairs (set_nth i (k (fst (exec q db))) ps) (snd (exec q db)).
Proof.
  intros Hnd ps db i R q k [Hlen Hst] Hn.
  assert (Hi : i < List.length pairs)
    by (rewrite <- Hlen; apply nth_error_Some; congruence).
  destruct (nth_error pairs i) as [pair|] eqn:Hp;
    [|apply nth_error_None in Hp; lia].
  pose proof (Hst _ _ _ Hp Hn) as Hstage.
  split; [now rewrite set_nth_length|].
  destruct db as [ops flds ofs ots fts errs].
  destruct q; cbn [stage] in Hstage; try contradiction.
  - (* the lookup of the pair *)
    destruct Hstage as (Hpair & Hrows & Hk). subst pair.
    cbn [exec fst snd].
    intros j pair' task' Hp' Hn'.
    destruct (Nat.eq_dec i j) as [<-|Hij].
    + rewrite (set_nth_same _ _ _ _ Hn) in Hn'. injection Hn' as <-.
      assert (pair' = (type, name)) as -> by congruence.
      rewrite Hk.
      assert (Hfr : field_rows (type, name) (Tables.mk ops flds ofs ots fts errs)
                    = filter (is_field type name) flds) by reflexivity.
      destruct (filter (is_field type name) flds) as [|r rows] eqn:Hf.
      * cbn [map stage await]. repeat split; auto. now rewrite <- Hrows.
      * cbn [map stage]. left. split; [|exact Hrows].
        now rewrite <- Hrows, Hfr.
    + rewrite set_nth_other in Hn' by exact Hij. eapply Hst; eauto.
  - (* the insert of the pair *)
    destruct Hstage as (Hrow & Hrows & Hrows0 & Hk). subst row.
    cbn [exec fst snd].
    intros j pair' task' Hp' Hn'.
    destruct (Nat.eq_dec i j) as [<-|Hij].
    + rewrite (set_nth_same _ _ _ _ Hn) in Hn'. injection Hn' as <-.
      assert (pair' = pair) as -> by congruence.
      rewrite Hk. cbn. right. split; [exact Hrows0|].
      rewrite field_rows_insert_same, Hrows. reflexivity.
    + rewrite set_nth_other in Hn' by exact Hij.
      eapply stage_frame; [|eapply Hst; eauto].
      apply field_rows_insert_other.
      intros ->. apply Hij.
      apply (proj1 (NoDup_nth_error pairs) Hnd); [exact Hi | congruence].
Qed.

Lemma stage_ensureFieldId (c : Knex) (self : PostgreSQLAdapter) (db : Tables.t)
    (pair : string * option string) :
  _client self = Some c -> stage db db pair (ensureFieldId self pair).
Proof.
  intros Hc. destruct self as [cfg cl]. cbn in Hc. subst cl.
  destruct pair as [type field]. cbn.
  split; [reflexivity|]. split; [reflexivity|].
  intros [|fieldResult found]; reflexivity.
Qed.

Lemma stages_ensureFieldId (c : Knex) (self : PostgreSQLAdapter) (db : Tables.t)
    (pairs : list (string * option string)) :
  _client self = Some c ->
  stages db pairs (map (ensureFieldId self) pairs) db.
Proof.
  intros Hc. split; [apply length_map|].
  intros j pair task Hp Ht. rewrite nth_error_map, Hp in Ht.
  injection Ht as <-. eapply stage_ensureFieldId; eauto.
Qed.

(** Whatever the order in which the store serves the lookups and inserts
    of distinct pairs, each pair ends looked up or inserted: the
    identifier returned at its position is the first identifier of its
    rows when it had any, which are then left as they were, and otherwise
    the identifier of the one row inserted for it. *)
Lemma all_ensureFieldId_resolved (c : Knex) (self : PostgreSQLAdapter)
    (sched : list nat) (pairs : list (string * option string))
    (db db' : Tables.t) (ids : list Z) :
  _client self = Some c -> NoDup pairs ->
  run (all sched (map (ensureFieldId self) pairs)) db = (inr ids, db') ->
  List.length ids = List.length pairs
  /\ forall j pair, nth_error pairs j = Some pair ->
       exists i, nth_error ids j = Some i /\ resolved db db' pair i.
Proof.
  intros Hc Hnd Hrun.
  pose proof (all_invariant (stages db pairs) (stages_step db pairs Hnd)
                sched _ db ids db' (stages_ensureFieldId c self db pairs Hc) Hrun)
    as [Hlen Hst].
  rewrite length_map in Hlen. split; [exact Hlen|].
  intros j pair Hp.
  destruct (nth_error ids j) as [i|] eqn:Hi.
  - exists i. split; auto.
    apply (Hst j pair (Ret i) Hp). now rewrite nth_error_map, Hi.
  - apply nth_error_None in Hi.
    assert (j < List.length pairs) by (apply nth_error_Some; congruence). lia.
Qed.

(* ================================================================== *)
(** * One trace write *)

Section WriteTrace.

Variable operationSignature : option string -> option string -> Exn + string.
Variable normalizeTraceNode : TraceNode.t -> NormalizedTraceNodeMap.

Local Abbreviation wt := (writeTrace operationSignature normalizeTraceNode).
Local Abbreviation nodes_of trace :=
  (flatten (Object_values (normalizeTraceNode (Trace.entry trace)))).

(** A write that does not fail had a client and a signature. *)
Lemma writeTrace_ok_inv sched self trace db db' :
  run (wt sched self trace) db = (inr tt, db') ->
  (exists c, _client self = Some c)
  /\ exists signature,
       operationSignature (Trace.query trace) (Trace.operationName trace)
       = inr signature.
Proof.
  unfold writeTrace, client.
  destruct (operationSignature _ _) as [e|signature]; simpl; [discriminate|].
  destruct (_client self) as [c|]; simpl; [|discriminate].
  eauto.
Qed.

(** What a trace write does, step by step: the operation is resolved,
    the fields are resolved, and the rows of [written] are added. *)
Lemma known_hd_error signature db :
  known signature db
  = match hd_error (map (@id _) (filter (has_signature signature) (Tables.Operations db))) with
    | Some _ => true
    | None => false
    end.
Proof.
  unfold known. induction (Tables.Operations db) as [|r ops IH]; simpl; auto.
  destruct (has_signature signature r); simpl; auto.
Qed.

(** The two inserts into [Errors] that end a trace write. *)
Lemma insert_errors_run operationTraceId errors fieldErrors
    ops flds ofs ots fts errs :
  run (_ <- match errors with
            | [] => Ret tt
            | e :: l =>
                await (InsertErrors (map (operationError_of operationTraceId) (e :: l)))
            end ;;
       await (InsertErrors fieldErrors))
      (Tables.mk ops flds ofs ots fts errs)
  = (inr tt,
     Tables.mk ops flds ofs ots fts
       (errs
          ++ number_from (List.length errs)
               (map (operationError_of operationTraceId) errors)
          ++ number_from (List.length errs + List.length errors) fieldErrors)).
Proof.
  destruct errors as [|e errors]; cbn [bind await run exec].
  - rewrite insert_rows_eq. cbn [snd map]. rewrite Nat.add_0_r. reflexivity.
  - rewrite !insert_rows_eq. cbn [snd].
    rewrite length_app, number_from_length, length_map, <- app_assoc.
    reflexivity.
Qed.

Lemma writeTrace_run sched self trace db c signature :
  _client self = Some c ->
  operationSignature (Trace.query trace) (Trace.operationName trace)
  = inr signature ->
  exists fieldIdMap dbf,
    run (ensureFieldIdMap sched self (normalizeTraceNode (Trace.entry trace)))
        (snd (resolved_operation signature trace db))
    = (inr fieldIdMap, dbf)
    /\ fields_grown (snd (resolved_operation signature trace db)) dbf
    /\ run (wt sched self trace) db
       = (inr tt,
          written (negb (known signature db))
            (fst (resolved_operation signature trace db))
            fieldIdMap trace (nodes_of trace) dbf).
Proof.
  intros Hc Hs.
  destruct (ensureFieldIdMap_returns c sched self
              (normalizeTraceNode (Trace.entry trace))
              (snd (resolved_operation signature trace db)) Hc)
    as (fieldIdMap & dbf & Hrun & Hgrown).
  exists fieldIdMap, dbf. split; [exact Hrun|]. split; [exact Hgrown|].
  unfold writeTrace. rewrite Hs. unfold client at 1. rewrite Hc.
  cbn [attempt bind await run].
  rewrite known_hd_error. unfold resolved_operation in *.
  assert (Hexec : exec (SelectOperationIds signature) db
                  = (map (@id _) (filter (has_signature signature) (Tables.Operations db)), db))
    by (destruct db; reflexivity).
  rewrite Hexec. clear Hexec.
  destruct (hd_error (map (@id _) (filter (has_signature signature) (Tables.Operations db))))
    as [existing|]; cbn [fst snd negb] in *.
  - cbn [bind]. rewrite run_bind, Hrun.
    unfold client. rewrite Hc. cbn [bind run].
    destruct dbf as [ops flds ofs ots fts errs].
    cbn [exec]. rewrite insert_rows_eq. cbn [bind run].
    rewrite insert_errors_run.
    unfold written, operationTrace_row, fieldTrace_rows, operationError_rows,
      fieldError_rows.
    cbn [Tables.Operations Tables.Fields Tables.OperationsFields
         Tables.OperationTraces Tables.FieldTraces Tables.Errors].
    rewrite app_nil_r. reflexivity.
  - unfold client at 1. rewrite Hc. cbn [bind await].
    assert (Hexec : exec (InsertOperation
                            (OperationModel.mk (Trace.query trace)
                               (Trace.operationName trace) signature)) db
                    = (next_id (Tables.Operations db),
                       Tables.mk
                         (Tables.Operations db
                            ++ [stored (next_id (Tables.Operations db))
                                  (OperationModel.mk (Trace.query trace)
                                     (Trace.operationName trace) signature)])
                         (Tables.Fields db) (Tables.OperationsFields db)
                         (Tables.OperationTraces db) (Tables.FieldTraces db)
                         (Tables.Errors db)))
      by (destruct db; reflexivity).
    cbn [run]. rewrite Hexec. clear Hexec.
    cbn [bind]. rewrite run_bind, Hrun.
    unfold client. rewrite Hc. cbn [bind run].
    destruct dbf as [ops flds ofs ots fts errs].
    cbn [exec bind run await]. rewrite insert_rows_eq. cbn [bind run].
    rewrite insert_errors_run.
    reflexivity.
Qed.
(** A write that does not fail, in the terms of [written]. *)
Lemma writeTrace_ok sched self trace db db' :
  run (wt sched self trace) db = (inr tt, db') ->
  exists signature fieldIdMap dbf,
    operationSignature (Trace.query trace) (Trace.operationName trace)
    = inr signature
    /\ run (ensureFieldIdMap sched self (normalizeTraceNode (Trace.entry trace)))
           (snd (resolved_operation signature trace db))
       = (inr fieldIdMap, dbf)
    /\ fields_grown (snd (resolved_operation signature trace db)) dbf
    /\ db' = written (negb (known signature db))
               (fst (resolved_operation signature trace db))
               fieldIdMap trace (nodes_of trace) dbf.
Proof.
  intros Hrun.
  destruct (writeTrace_ok_inv _ _ _ _ _ Hrun) as [[c Hc] [signature Hs]].
  destruct (writeTrace_run sched self trace db c signature Hc Hs)
    as (fieldIdMap & dbf & Hf & Hg & Hw).
  rewrite Hw in Hrun. injection Hrun as Hdb.
  exists signature, fieldIdMap, dbf.
  split; [exact Hs|]. split; [exact Hf|]. split; [exact Hg|].
  symmetry; exact Hdb.
Qed.

Lemma resolved_operation_traces signature trace db :
  Tables.OperationTraces (snd (resolved_operation signature trace db))
  = Tables.OperationTraces db
  /\ Tables.FieldTraces (snd (resolved_operation signature trace db))
     = Tables.FieldTraces db
  /\ Tables.Errors (snd (resolved_operation signature trace db))
     = Tables.Errors db
  /\ Tables.OperationsFields (snd (resolved_operation signature trace db))
     = Tables.OperationsFields db.
Proof.
  unfold resolved_operation.
  destruct (hd_error _); cbn; auto.
Qed.

Lemma in_flatten_mapi_from {A B} (f : A -> nat -> list B) (a : list A) (i : nat) (y : B) :
  In y (flatten (mapi_from i f a)) ->
  exists x k, nth_error a k = Some x /\ In y (f x (i + k)).
Proof.
  unfold flatten. revert i; induction a as [|x a IH]; intros i; cbn.
  - contradiction.
  - rewrite in_app_iff. intros [H|H].
    + exists x, 0. rewrite Nat.add_0_r. auto.
    + destruct (IH _ H) as (x' & k & Hk & Hin).
      exists x', (S k). split; auto.
      now replace (i + S k) with (S i + k) by lia.
Qed.

Lemma in_number_from {C} (rows : list C) (n : nat) (r : Stored C) :
  In r (number_from n rows) -> In (cols r) rows.
Proof.
  intros H. rewrite <- (number_from_cols rows n). now apply in_map.
Qed.

Lemma filter_length_le {A} (f : A -> bool) (a : list A) :
  List.length (filter f a) <= List.length a.
Proof. induction a; cbn; auto. destruct (f a); cbn; lia. Qed.

(** C6.  The Error rows a trace write inserts are the rows of the errors
    of the root entry, one per error, each owned by the OperationTrace
    row of this write and by no FieldTrace row, followed by the rows of
    the errors of the nodes, each owned by a FieldTrace row of this write
    and by no OperationTrace row: every one of them has exactly one of
    the two owners set. *)
Theorem C6_error_rows_have_exactly_one_owner sched self trace db db' :
  run (writeTrace operationSignature normalizeTraceNode sched self trace) db
  = (inr tt, db') ->
  exists fieldTraceRows operationErrors fieldErrors,
    Tables.FieldTraces db' = Tables.FieldTraces db ++ fieldTraceRows
    /\ Tables.Errors db' = Tables.Errors db ++ operationErrors ++ fieldErrors
    /\ List.length operationErrors
       = List.length (TraceNode.errors (Trace.entry trace))
    /\ Forall (owned_by_operation_trace (next_id (Tables.OperationTraces db)))
              operationErrors
    /\ Forall (owned_by_field_trace (map (@id _) fieldTraceRows)) fieldErrors
    /\ Forall exactly_one_owner (operationErrors ++ fieldErrors).
Proof.
  intros Hrun.
  destruct (writeTrace_ok _ _ _ _ _ Hrun)
    as (signature & fieldIdMap & dbf & Hs & Hf & Hg & ->).
  destruct (resolved_operation_traces signature trace db) as (R1 & R2 & R3 & R4).
  destruct Hg as (G1 & G2 & G3 & G4 & G5 & G6).
  exists (fieldTrace_rows fieldIdMap (nodes_of trace) dbf),
    (operationError_rows trace dbf),
    (fieldError_rows fieldIdMap trace (nodes_of trace) dbf).
  assert (Hop : Forall (owned_by_operation_trace (next_id (Tables.OperationTraces db)))
                  (operationError_rows trace dbf)).
  { apply Forall_forall. intros r Hr. apply in_number_from in Hr.
    apply in_map_iff in Hr as (e & He & _).
    unfold owned_by_operation_trace. rewrite <- He, G3, R1.
    split; reflexivity. }
  assert (Hfe : Forall (owned_by_field_trace
                          (map (@id _) (fieldTrace_rows fieldIdMap (nodes_of trace) dbf)))
                  (fieldError_rows fieldIdMap trace (nodes_of trace) dbf)).
  { apply Forall_forall. intros r Hr. apply in_number_from in Hr.
    apply in_flatten_mapi_from in Hr as (node & k & Hk & Hin).
    apply in_map_iff in Hin as (e & He & _).
    unfold owned_by_field_trace. rewrite <- He. cbn [ErrorModel.operationTraceId ErrorModel.fieldTraceId].
    split; [reflexivity|].
    assert (Hlt : k < List.length
                        (map (@id _) (fieldTrace_rows fieldIdMap (nodes_of trace) dbf))).
    { unfold fieldTrace_rows. rewrite length_map, number_from_length, length_map.
      apply Nat.lt_le_trans with (List.length (filter has_errors (nodes_of trace))).
      - apply nth_error_Some. congruence.
      - apply filter_length_le. }
    unfold at_index.
    destruct (nth_error (map (@id _) (fieldTrace_rows fieldIdMap (nodes_of trace) dbf)) k)
      as [i|] eqn:Hi.
    - exists i. split; auto. eapply nth_error_In; eauto.
    - apply nth_error_None in Hi. lia. }
  unfold written. cbn [Tables.FieldTraces Tables.Errors].
  rewrite G4, G5, R2, R3.
  split; [reflexivity|]. split; [reflexivity|].
  split; [unfold operationError_rows; now rewrite number_from_length, length_map|].
  split; [exact Hop|]. split; [exact Hfe|].
  apply Forall_app. split.
  - eapply Forall_impl; [|exact Hop]. intros r [H1 H2]. left. split; congruence.
  - eapply Forall_impl; [|exact Hfe]. intros r [H1 (i & H2 & _)]. right.
    split; congruence.
Qed.

Lemma mapi_from_ext_in {A B} (f g : A -> nat -> B) (a : list A) (i : nat) :
  (forall x k, nth_error a k = Some x -> f x (i + k) = g x (i + k)) ->
  mapi_from i f a = mapi_from i g a.
Proof.
  revert i; induction a as [|x a IH]; intros i H; cbn; auto.
  f_equal.
  - specialize (H x 0 eq_refl). now rewrite Nat.add_0_r in H.
  - apply IH. intros y k Hk. specialize (H y (S k) Hk).
    now replace (i + S k) with (S i + k) in H by lia.
Qed.

Lemma number_from_id_nth {C} (rows : list C) (n k : nat) :
  k < List.length rows ->
  nth_error (map (@id C) (number_from n rows)) k = Some (Z.of_nat (n + k) + 1)%Z.
Proof.
  intros Hk. unfold number_from. rewrite nth_error_map, mapi_from_nth.
  destruct (nth_error rows k) eqn:Hn; [reflexivity|].
  apply nth_error_None in Hn. lia.
Qed.

(** Where the errors of the nodes go: the errors of the node at rank [k]
    among the nodes that have errors are owned by the FieldTrace row
    generated at rank [k] of the whole sequence. *)
Lemma writeTrace_node_errors_by_rank sched self trace db db' :
  run (wt sched self trace) db = (inr tt, db') ->
  map (@cols _)
      (skipn (List.length (Tables.Errors db)
              + List.length (TraceNode.errors (Trace.entry trace)))
             (Tables.Errors db'))
  = flatten
      (mapi (fun node k =>
               map (fun error =>
                      ErrorModel.mk None
                        (Some (next_id (Tables.FieldTraces db) + Z.of_nat k)%Z)
                        (TraceError.message error) (TraceError.json error))
                   (NormalizedTraceNode.errors node))
            (filter has_errors (nodes_of trace))).
Proof.
  intros Hrun.
  destruct (writeTrace_ok _ _ _ _ _ Hrun)
    as (signature & fieldIdMap & dbf & Hs & Hf & Hg & ->).
  destruct (resolved_operation_traces signature trace db) as (R1 & R2 & R3 & R4).
  destruct Hg as (G1 & G2 & G3 & G4 & G5 & G6).
  unfold written. cbn [Tables.Errors]. rewrite G5, R3.
  rewrite app_assoc, skipn_app.
  assert (Hlen : List.length (Tables.Errors db ++ operationError_rows trace dbf)
                 = List.length (Tables.Errors db)
                   + List.length (TraceNode.errors (Trace.entry trace))).
  { unfold operationError_rows.
    now rewrite length_app, number_from_length, length_map. }
  rewrite <- Hlen, skipn_all, Nat.sub_diag. cbn [skipn app].
  unfold fieldError_rows. rewrite number_from_cols.
  f_equal. unfold mapi. apply mapi_from_ext_in. intros node k Hk.
  unfold fieldErrors_of, at_index, fieldTrace_rows.
  rewrite number_from_id_nth.
  - rewrite G4, R2. unfold next_id. cbn [Nat.add].
    replace (Z.of_nat (List.length (Tables.FieldTraces db) + k) + 1)%Z
      with (Z.of_nat (List.length (Tables.FieldTraces db)) + 1 + Z.of_nat k)%Z
      by lia.
    reflexivity.
  - rewrite length_map.
    apply Nat.lt_le_trans with (List.length (filter has_errors (nodes_of trace))).
    + apply nth_error_Some. cbn [Nat.add]. congruence.
    + apply filter_length_le.
Qed.

(** ** The operation of a trace *)

Lemma resolved_operation_operations signature trace db :
  Tables.Operations (snd (resolved_operation signature trace db))
  = Tables.Operations db
      ++ (if known signature db then []
          else [stored (fst (resolved_operation signature trace db))
                  (OperationModel.mk (Trace.query trace)
                     (Trace.operationName trace) signature)]).
Proof.
  rewrite known_hd_error. unfold resolved_operation.
  destruct (hd_error _); cbn; auto. now rewrite app_nil_r.
Qed.

Lemma hd_error_filter_none signature ops :
  hd_error (map (@id _) (filter (has_signature signature) ops)) = None ->
  filter (has_signature signature) ops = [].
Proof. destruct (filter _ ops); cbn; auto. discriminate. Qed.

(** Once resolved, an operation resolves to the same identifier in every
    store with the same [Operations], and nothing is inserted for it. *)
Lemma resolved_operation_again signature trace trace' db db' :
  Tables.Operations db'
  = Tables.Operations (snd (resolved_operation signature trace db)) ->
  resolved_operation signature trace' db'
  = (fst (resolved_operation signature trace db), db')
  /\ known signature db' = true.
Proof.
  intros H. rewrite known_hd_error.
  unfold resolved_operation at 1. rewrite H. clear H.
  unfold resolved_operation.
  destruct (hd_error (map (@id _) (filter (has_signature signature) (Tables.Operations db))))
    as [existing|] eqn:Hhd; cbn [fst snd].
  - rewrite Hhd. auto.
  - cbn [Tables.Operations]. rewrite filter_app.
    rewrite (hd_error_filter_none _ _ Hhd). cbn.
    rewrite String.eqb_refl. cbn. auto.
Qed.

Lemma writeTrace_operations sched self trace db db' signature :
  operationSignature (Trace.query trace) (Trace.operationName trace)
  = inr signature ->
  run (wt sched self trace) db = (inr tt, db') ->
  Tables.Operations db'
  = Tables.Operations (snd (resolved_operation signature trace db)).
Proof.
  intros Hs Hrun.
  destruct (writeTrace_ok _ _ _ _ _ Hrun)
    as (signature' & fieldIdMap & dbf & Hs' & Hf & Hg & ->).
  assert (signature' = signature) as -> by congruence.
  destruct Hg as (G1 & _). exact G1.
Qed.

Lemma known_app signature db db' new :
  Tables.Operations db' = Tables.Operations db ++ new ->
  known signature db = true -> known signature db' = true.
Proof.
  unfold known. intros ->. rewrite existsb_app. intros ->. reflexivity.
Qed.

(** An operation that is stored stays stored. *)
Lemma known_later signature db db' :
  later operationSignature normalizeTraceNode db db' ->
  known signature db = true -> known signature db' = true.
Proof.
  induction 1 as [|db1 db2 sched self trace _ IH Hrun]; auto.
  intros Hk. specialize (IH Hk).
  destruct (writeTrace_ok _ _ _ _ _ Hrun)
    as (signature' & fieldIdMap & dbf & Hs' & Hf & Hg & ->).
  destruct Hg as (G1 & _).
  eapply known_app; [|exact IH].
  unfold written. cbn [Tables.Operations]. rewrite G1.
  apply resolved_operation_operations.
Qed.

(** C4.  A trace write inserts OperationField rows only when no
    operation with its signature is stored: then it links the new
    operation to every identifier of [fieldIdMap], and afterwards the
    operation is stored.  When the operation is stored already, the
    write inserts no OperationField row; so does every later write of a
    trace with the same signature, whatever fields that trace
    references. *)
Theorem C4_operation_fields_linked_on_first_sighting_only
    sched self trace db db' signature :
  operationSignature (Trace.query trace) (Trace.operationName trace)
  = inr signature ->
  run (writeTrace operationSignature normalizeTraceNode sched self trace) db
  = (inr tt, db') ->
  (known signature db = true ->
   Tables.OperationsFields db' = Tables.OperationsFields db)
  /\ (known signature db = false ->
      exists operationId fieldIdMap,
        Tables.OperationsFields db'
        = Tables.OperationsFields db
            ++ map (fun fieldId => OperationFieldModel.mk fieldId operationId)
                   (Object_values fieldIdMap))
  /\ known signature db' = true
  /\ forall db2 db3 sched' self' trace',
       later operationSignature normalizeTraceNode db' db2 ->
       operationSignature (Trace.query trace') (Trace.operationName trace')
       = inr signature ->
       run (writeTrace operationSignature normalizeTraceNode sched' self' trace') db2
       = (inr tt, db3) ->
       Tables.OperationsFields db3 = Tables.OperationsFields db2.
Proof.
  intros Hs Hrun.
  assert (Hone : forall sched self trace db db',
             operationSignature (Trace.query trace) (Trace.operationName trace)
             = inr signature ->
             run (wt sched self trace) db = (inr tt, db') ->
             known signature db = true ->
             Tables.OperationsFields db' = Tables.OperationsFields db).
  { clear. intros sched self trace db db' Hs Hrun Hk.
    destruct (writeTrace_ok _ _ _ _ _ Hrun)
      as (signature' & fieldIdMap & dbf & Hs' & Hf & Hg & ->).
    assert (signature' = signature) as -> by congruence.
    destruct (resolved_operation_traces signature trace db) as (_ & _ & _ & R4).
    destruct Hg as (_ & G2 & _).
    unfold written. cbn [Tables.OperationsFields].
    rewrite Hk, G2, R4. cbn. now rewrite app_nil_r. }
  assert (Hk' : known signature db' = true).
  { destruct (resolved_operation_again signature trace trace db db'
                (writeTrace_operations _ _ _ _ _ _ Hs Hrun)) as [_ H].
    exact H. }
  split; [eauto|]. split; [|split; [exact Hk'|]].
  - intros Hk.
    destruct (writeTrace_ok _ _ _ _ _ Hrun)
      as (signature' & fieldIdMap & dbf & Hs' & Hf & Hg & ->).
    assert (signature' = signature) as -> by congruence.
    destruct (resolved_operation_traces signature trace db) as (_ & _ & _ & R4).
    destruct Hg as (_ & G2 & _).
    exists (fst (resolved_operation signature trace db)), fieldIdMap.
    unfold written. cbn [Tables.OperationsFields].
    rewrite Hk, G2, R4. reflexivity.
  - intros db2 db3 sched' self' trace' Hlater Hs2 Hrun2.
    eapply Hone; eauto. eapply known_later; eauto.
Qed.

Lemma writeTrace_operation_trace sched self trace db db' signature :
  operationSignature (Trace.query trace) (Trace.operationName trace)
  = inr signature ->
  run (wt sched self trace) db = (inr tt, db') ->
  Tables.OperationTraces db'
  = Tables.OperationTraces db
      ++ [stored (next_id (Tables.OperationTraces db))
            (OperationTraceModel.mk
               (fst (resolved_operation signature trace db))
               (Trace.startTime trace) (Trace.duration trace)
               (Trace.parsing trace) (Trace.validation trace)
               (Trace.execution trace))].
Proof.
  intros Hs Hrun.
  destruct (writeTrace_ok _ _ _ _ _ Hrun)
    as (signature' & fieldIdMap & dbf & Hs' & Hf & Hg & ->).
  assert (signature' = signature) as -> by congruence.
  destruct (resolved_operation_traces signature trace db) as (R1 & _).
  destruct Hg as (_ & _ & G3 & _).
  unfold written, operationTrace_row. cbn [Tables.OperationTraces].
  now rewrite G3, R1.
Qed.

(** C5.  Two traces with the same query and operation name, written one
    after the other: together the two writes insert exactly one Operation
    row when no operation with their signature was stored, and none when
    one was; each write inserts exactly one OperationTrace row; the two
    OperationTrace rows hold the same [operationId]. *)
Theorem C5_same_operation_written_twice
    sched1 sched2 self trace1 trace2 db db1 db2 :
  Trace.query trace1 = Trace.query trace2 ->
  Trace.operationName trace1 = Trace.operationName trace2 ->
  run (writeTrace operationSignature normalizeTraceNode sched1 self trace1) db
  = (inr tt, db1) ->
  run (writeTrace operationSignature normalizeTraceNode sched2 self trace2) db1
  = (inr tt, db2) ->
  exists signature operationId,
    operationSignature (Trace.query trace1) (Trace.operationName trace1)
    = inr signature
    /\ Tables.Operations db2
       = Tables.Operations db
           ++ (if known signature db then []
               else [stored operationId
                       (OperationModel.mk (Trace.query trace1)
                          (Trace.operationName trace1) signature)])
    /\ Tables.OperationTraces db1
       = Tables.OperationTraces db
           ++ [stored (next_id (Tables.OperationTraces db))
                 (OperationTraceModel.mk operationId
                    (Trace.startTime trace1) (Trace.duration trace1)
                    (Trace.parsing trace1) (Trace.validation trace1)
                    (Trace.execution trace1))]
    /\ Tables.OperationTraces db2
       = Tables.OperationTraces db1
           ++ [stored (next_id (Tables.OperationTraces db1))
                 (OperationTraceModel.mk operationId
                    (Trace.startTime trace2) (Trace.duration trace2)
                    (Trace.parsing trace2) (Trace.validation trace2)
                    (Trace.execution trace2))].
Proof.
  intros Hq Hn Hrun1 Hrun2.
  destruct (writeTrace_ok_inv _ _ _ _ _ Hrun1) as [_ [signature Hs1]].
  assert (Hs2 : operationSignature (Trace.query trace2) (Trace.operationName trace2)
                = inr signature) by (rewrite <- Hq, <- Hn; exact Hs1).
  exists signature, (fst (resolved_operation signature trace1 db)).
  pose proof (writeTrace_operations _ _ _ _ _ _ Hs1 Hrun1) as Hops1.
  pose proof (writeTrace_operations _ _ _ _ _ _ Hs2 Hrun2) as Hops2.
  destruct (resolved_operation_again signature trace1 trace2 db db1 Hops1)
    as [Hagain _].
  split; [exact Hs1|]. split; [|split].
  - rewrite Hops2, Hagain. cbn [snd]. rewrite Hops1.
    apply resolved_operation_operations.
  - apply (writeTrace_operation_trace _ _ _ _ _ _ Hs1 Hrun1).
  - rewrite (writeTrace_operation_trace _ _ _ _ _ _ Hs2 Hrun2).
    now rewrite Hagain.
Qed.

End WriteTrace.

(* ================================================================== *)
(** * The task pool of a report *)

Lemma settle_void_inl (ps : list (Prog unit)) (e : Exn) :
  settle_void ps = Some (inl e) -> In (Throw e) ps.
Proof.
  unfold settle_void, settle.
  destruct (first_thrown ps) as [e'|] eqn:Ht.
  - intros H; injection H as <-. now apply first_thrown_In.
  - destruct (all_returned ps); discriminate.
Qed.

Lemma settle_void_inr (ps : list (Prog unit)) (u : unit) :
  settle_void ps = Some (inr u) -> Forall (fun t => t = Ret tt) ps.
Proof.
  unfold settle_void, settle.
  destruct (first_thrown ps) as [e'|] eqn:Ht; [discriminate|].
  destruct (all_returned ps) as [l|] eqn:Ha; [|discriminate].
  intros _. apply all_returned_map in Ha. subst ps.
  apply Forall_forall. intros t Hin.
  apply in_map_iff in Hin as ([] & <- & _). reflexivity.
Qed.

Lemma settle_void_none (ps : list (Prog unit)) :
  settle_void ps = None ->
  first_thrown ps = None /\ existsb (fun t => negb (settled t)) ps = true.
Proof.
  unfold settle_void, settle.
  destruct (first_thrown ps) as [e'|] eqn:Ht; [discriminate|].
  destruct (all_returned ps) as [l|] eqn:Ha; [discriminate|].
  intros _. split; auto. now apply all_returned_pending.
Qed.

Lemma promise_agrees_settle (db : Tables.t) (ps : list (Prog unit)) :
  promise_agrees (Pool.mk db ps (settle_void ps)).
Proof.
  unfold promise_agrees. cbn.
  destruct (settle_void ps) as [[e|u]|] eqn:H.
  - now apply settle_void_inl.
  - now apply settle_void_inr with u.
  - now apply settle_void_none.
Qed.

Lemma pool_step_agrees (i : nat) (p : Pool.t) :
  promise_agrees p -> promise_agrees (pool_step i p).
Proof.
  intros Hp. unfold pool_step.
  destruct (nth_error (Pool.tasks p) i) as [t|] eqn:Hn; auto.
  destruct t as [a|e|R q k]; auto.
  destruct (exec q (Pool.store p)) as [r db'].
  unfold promise_agrees in *. cbn.
  destruct (Pool.promise p) as [[e|u]|].
  - eapply set_nth_In; eauto. discriminate.
  - rewrite Forall_forall in Hp. apply nth_error_In in Hn.
    specialize (Hp _ Hn). discriminate.
  - apply (promise_agrees_settle db').
Qed.

Lemma pool_run_agrees (sched : list nat) (p : Pool.t) :
  promise_agrees p -> promise_agrees (pool_run sched p).
Proof.
  unfold pool_run. revert p; induction sched as [|i sched IH]; intros p H; cbn; auto.
  apply IH. now apply pool_step_agrees.
Qed.

Lemma pool_step_length (i : nat) (p : Pool.t) :
  List.length (Pool.tasks (pool_step i p)) = List.length (Pool.tasks p).
Proof.
  unfold pool_step.
  destruct (nth_error (Pool.tasks p) i) as [t|]; auto.
  destruct t as [a|e|R q k]; auto.
  destruct (exec q (Pool.store p)) as [r db']. cbn. apply set_nth_length.
Qed.

Lemma pool_run_length (sched : list nat) (p : Pool.t) :
  List.length (Pool.tasks (pool_run sched p)) = List.length (Pool.tasks p).
Proof.
  unfold pool_run. revert p; induction sched as [|i sched IH]; intros p; cbn; auto.
  rewrite IH. apply pool_step_length.
Qed.

(** A step of task [i] leaves the other tasks as they are. *)
Lemma pool_step_other (i j : nat) (p : Pool.t) :
  i <> j ->
  nth_error (Pool.tasks (pool_step i p)) j = nth_error (Pool.tasks p) j.
Proof.
  intros Hij. unfold pool_step.
  destruct (nth_error (Pool.tasks p) i) as [t|]; auto.
  destruct t as [a|e|R q k]; auto.
  destruct (exec q (Pool.store p)) as [r db']. cbn. now apply set_nth_other.
Qed.

(** The pending request of a task is served whatever the promise and the
    other tasks have come to. *)
Lemma pool_step_pending (i : nat) (p : Pool.t) {R} (q : Req R) (k : R -> Prog unit) :
  nth_error (Pool.tasks p) i = Some (Vis q k) ->
  Pool.store (pool_step i p) = snd (exec q (Pool.store p))
  /\ nth_error (Pool.tasks (pool_step i p)) i = Some (k (fst (exec q (Pool.store p)))).
Proof.
  intros Hn. unfold pool_step. rewrite Hn.
  destruct (exec q (Pool.store p)) as [r db']. cbn. split; auto.
  eapply set_nth_same; eauto.
Qed.

(** A task that has returned or thrown is never stepped again. *)
Lemma pool_step_settled (i j : nat) (p : Pool.t) :
  settled_at p j -> settled_at (pool_step i p) j.
Proof.
  unfold settled_at. intros H.
  destruct (Nat.eq_dec i j) as [->|Hij].
  - unfold pool_step.
    destruct (nth_error (Pool.tasks p) j) as [t|] eqn:Hn; [|now rewrite Hn].
    destruct t as [a|e|R q k]; try (now rewrite Hn). discriminate.
  - now rewrite pool_step_other.
Qed.

Lemma pool_run_settled (sched : list nat) (j : nat) (p : Pool.t) :
  settled_at p j -> settled_at (pool_run sched p) j.
Proof.
  unfold pool_run. revert p; induction sched as [|i sched IH]; intros p H; cbn; auto.
  apply IH. now apply pool_step_settled.
Qed.

Lemma pool_run_app (a b : list nat) (p : Pool.t) :
  pool_run (a ++ b) p = pool_run b (pool_run a p).
Proof. unfold pool_run. apply fold_left_app. Qed.

(** Served often enough, a task returns or throws. *)
Lemma drive_task (t : Prog unit) :
  forall (p : Pool.t) (i : nat),
    nth_error (Pool.tasks p) i = Some t ->
    exists n, settled_at (pool_run (repeat i n) p) i.
Proof.
  induction t as [a|e|R q k IH]; intros p i Hn.
  - exists 0. unfold settled_at. cbn. now rewrite Hn.
  - exists 0. unfold settled_at. cbn. now rewrite Hn.
  - destruct (pool_step_pending i p q k Hn) as [_ Hstep].
    destruct (IH _ _ _ Hstep) as [n Hs].
    exists (S n). exact Hs.
Qed.

Lemma drive_all (m : nat) (p : Pool.t) :
  exists sched, forall j, j < m -> settled_at (pool_run sched p) j.
Proof.
  induction m as [|m [sched IH]].
  - exists []. intros j Hj. lia.
  - destruct (nth_error (Pool.tasks (pool_run sched p)) m) as [t|] eqn:Hn.
    + destruct (drive_task t _ _ Hn) as [n Hs].
      exists (sched ++ repeat m n). intros j Hj. rewrite pool_run_app.
      destruct (Nat.eq_dec j m) as [->|Hjm]; auto.
      apply pool_run_settled. apply IH. lia.
    + exists sched. intros j Hj.
      destruct (Nat.eq_dec j m) as [->|Hjm].
      * unfold settled_at. now rewrite Hn.
      * apply IH. lia.
Qed.

(** Every task of a pool can be served to its end. *)
Lemma pool_completes (p : Pool.t) :
  exists sched, forallb settled (Pool.tasks (pool_run sched p)) = true.
Proof.
  destruct (drive_all (List.length (Pool.tasks p)) p) as [sched H].
  exists sched. apply forallb_forall. intros t Hin.
  apply In_nth_error in Hin as [j Hj].
  assert (Hlt : j < List.length (Pool.tasks p)).
  { rewrite <- (pool_run_length sched). apply nth_error_Some. congruence. }
  specialize (H j Hlt). unfold settled_at in H. now rewrite Hj in H.
Qed.

Lemma pool_run_promise (sched : list nat) (p : Pool.t) (s : Exn + unit) :
  Pool.promise p = Some s -> Pool.promise (pool_run sched p) = Some s.
Proof.
  unfold pool_run. revert p; induction sched as [|i sched IH]; intros p H; cbn; auto.
  apply IH. unfold pool_step.
  destruct (nth_error (Pool.tasks p) i) as [t|]; auto.
  destruct t as [a|e|R q k]; auto.
  destruct (exec q (Pool.store p)) as [r db']. cbn. now rewrite H.
Qed.

(** ** Requests the store rejects *)

Lemma pool_history_serve (sched : list nat) (p : Pool.t) :
  pool_history (map Serve sched) p = pool_run sched p.
Proof.
  unfold pool_history, pool_run.
  revert p; induction sched as [|i sched IH]; intros p; cbn; auto.
Qed.

Lemma pool_history_app (a b : list Event) (p : Pool.t) :
  pool_history (a ++ b) p = pool_history b (pool_history a p).
Proof. unfold pool_history. apply fold_left_app. Qed.

(** An event changes nothing, or it answers the pending request of its
    task: the task continues with the response or throws the rejection,
    and a promise that was pending settles by the rule of [Promise.all]. *)
Lemma pool_event_cases (ev : Event) (p : Pool.t) :
  pool_event ev p = p
  \/ exists R (q : Req R) (k : R -> Prog unit) (t' : Prog unit),
       nth_error (Pool.tasks p) (task_of ev) = Some (Vis q k)
       /\ ((exists r, t' = k r) \/ (exists e, t' = Throw e))
       /\ Pool.tasks (pool_event ev p) = set_nth (task_of ev) t' (Pool.tasks p)
       /\ Pool.promise (pool_event ev p)
          = match Pool.promise p with
            | Some s => Some s
            | None => settle_void (set_nth (task_of ev) t' (Pool.tasks p))
            end.
Proof.
  destruct ev as [i|i e]; cbn [pool_event task_of].
  - unfold pool_step.
    destruct (nth_error (Pool.tasks p) i) as [t|] eqn:Hn; auto.
    destruct t as [a|e|R q k]; auto.
    right. exists R, q, k, (k (fst (exec q (Pool.store p)))).
    destruct (exec q (Pool.store p)) as [r db']. cbn.
    split; [reflexivity|]. split; [left; eauto|]. split; reflexivity.
  - unfold pool_reject.
    destruct (nth_error (Pool.tasks p) i) as [t|] eqn:Hn; auto.
    destruct t as [a|e'|R q k]; auto.
    right. exists R, q, k, (Throw e). cbn.
    split; [reflexivity|]. split; [right; eauto|]. split; reflexivity.
Qed.

Lemma pool_event_agrees (ev : Event) (p : Pool.t) :
  promise_agrees p -> promise_agrees (pool_event ev p).
Proof.
  intros Hp.
  destruct (pool_event_cases ev p)
    as [->|(R & q & k & t' & Hn & _ & Ht & Hpr)]; auto.
  unfold promise_agrees in *. rewrite Hpr, Ht.
  destruct (Pool.promise p) as [[e|u]|].
  - eapply set_nth_In; eauto. discriminate.
  - rewrite Forall_forall in Hp. apply nth_error_In in Hn.
    specialize (Hp _ Hn). discriminate.
  - exact (promise_agrees_settle (Pool.store p) _).
Qed.

Lemma pool_history_agrees (history : list Event) (p : Pool.t) :
  promise_agrees p -> promise_agrees (pool_history history p).
Proof.
  unfold pool_history.
  revert p; induction history as [|ev history IH]; intros p H; cbn; auto.
  apply IH. now apply pool_event_agrees.
Qed.

Lemma pool_event_length (ev : Event) (p : Pool.t) :
  List.length (Pool.tasks (pool_event ev p)) = List.length (Pool.tasks p).
Proof.
  destruct (pool_event_cases ev p)
    as [->|(R & q & k & t' & _ & _ & Ht & _)]; auto.
  rewrite Ht. apply set_nth_length.
Qed.

Lemma pool_history_length (history : list Event) (p : Pool.t) :
  List.length (Pool.tasks (pool_history history p)) = List.length (Pool.tasks p).
Proof.
  unfold pool_history.
  revert p; induction history as [|ev history IH]; intros p; cbn; auto.
  rewrite IH. apply pool_event_length.
Qed.

(** An event leaves the tasks other than its own as they are. *)
Lemma pool_event_other (ev : Event) (j : nat) (p : Pool.t) :
  task_of ev <> j ->
  nth_error (Pool.tasks (pool_event ev p)) j = nth_error (Pool.tasks p) j.
Proof.
  intros Hj.
  destruct (pool_event_cases ev p)
    as [->|(R & q & k & t' & _ & _ & Ht & _)]; auto.
  rewrite Ht. now apply set_nth_other.
Qed.

(** The pending request of a task is rejected whatever the promise and
    the other tasks have come to: the task throws the rejection and the
    store stays as it is. *)
Lemma pool_reject_pending (i : nat) (e : Exn) (p : Pool.t)
    {R} (q : Req R) (k : R -> Prog unit) :
  nth_error (Pool.tasks p) i = Some (Vis q k) ->
  Pool.store (pool_reject i e p) = Pool.store p
  /\ nth_error (Pool.tasks (pool_reject i e p)) i = Some (Throw e).
Proof.
  intros Hn. unfold pool_reject. rewrite Hn. cbn. split; auto.
  eapply set_nth_same; eauto.
Qed.

(** A settled promise stays as it is. *)
Lemma pool_event_promise (ev : Event) (p : Pool.t) (s : Exn + unit) :
  Pool.promise p = Some s -> Pool.promise (pool_event ev p) = Some s.
Proof.
  intros Hs.
  destruct (pool_event_cases ev p)
    as [->|(R & q & k & t' & _ & _ & _ & Hpr)]; auto.
  now rewrite Hpr, Hs.
Qed.

Lemma pool_history_promise (history : list Event) (p : Pool.t) (s : Exn + unit) :
  Pool.promise p = Some s -> Pool.promise (pool_history history p) = Some s.
Proof.
  unfold pool_history.
  revert p; induction history as [|ev history IH]; intros p H; cbn; auto.
  apply IH. now apply pool_event_promise.
Qed.

(** Each task of a pool is what is left of the task it was. *)
Lemma pool_event_follows (ev : Event) (p : Pool.t) (j : nat) (t0 : Prog unit) :
  (exists t, nth_error (Pool.tasks p) j = Some t /\ follows t0 t) ->
  exists t, nth_error (Pool.tasks (pool_event ev p)) j = Some t /\ follows t0 t.
Proof.
  intros (t & Hj & Hf).
  destruct (pool_event_cases ev p)
    as [->|(R & q & k & t' & Hn & Hans & Ht & _)]; [eauto|].
  rewrite Ht.
  destruct (Nat.eq_dec (task_of ev) j) as [Hej|Hej].
  - rewrite Hej in *. rewrite Hn in Hj. injection Hj as <-.
    exists t'. split; [eapply set_nth_same; eauto|].
    destruct Hans as [[r ->]|[e ->]].
    + eapply follows_served. exact Hf.
    + eapply follows_rejected. exact Hf.
  - exists t. split; [|exact Hf]. rewrite set_nth_other; auto.
Qed.

Lemma pool_history_follows (history : list Event) (p : Pool.t) (j : nat)
    (t0 : Prog unit) :
  (exists t, nth_error (Pool.tasks p) j = Some t /\ follows t0 t) ->
  exists t, nth_error (Pool.tasks (pool_history history p)) j = Some t
            /\ follows t0 t.
Proof.
  unfold pool_history.
  revert p; induction history as [|ev history IH]; intros p H; cbn; auto.
  apply IH. now apply pool_event_follows.
Qed.

Lemma first_thrown_set_nth {A} (ps : list (Prog A)) (i : nat) (e : Exn) (t : Prog A) :
  first_thrown ps = None ->
  nth_error ps i = Some t ->
  first_thrown (set_nth i (Throw e) ps) = Some e.
Proof.
  revert i; induction ps as [|p ps IH]; intros [|i]; cbn; try discriminate.
  - reflexivity.
  - destruct (thrown p); [discriminate|]. intros Hf Hn. now apply IH.
Qed.

Lemma settle_void_first (ps : list (Prog unit)) (e : Exn) :
  first_thrown ps = Some e -> settle_void ps = Some (inl e).
Proof. intros H. unfold settle_void, settle. now rewrite H. Qed.

(** The first failure: when no task had thrown and the task of an event
    has thrown [e] after it, the promise is rejected with [e]. *)
Lemma pool_event_first_failure (ev : Event) (p : Pool.t) (e : Exn) :
  promise_agrees p ->
  first_thrown (Pool.tasks p) = None ->
  nth_error (Pool.tasks (pool_event ev p)) (task_of ev) = Some (Throw e) ->
  Pool.promise (pool_event ev p) = Some (inl e).
Proof.
  intros Hp Hnone Hthrown.
  destruct (pool_event_cases ev p)
    as [Heq|(R & q & k & t' & Hn & _ & Ht & Hpr)].
  - rewrite Heq in Hthrown. apply nth_error_In in Hthrown.
    now apply (first_thrown_none _ e Hnone) in Hthrown.
  - rewrite Ht in Hthrown.
    rewrite (set_nth_same _ _ _ _ Hn) in Hthrown. injection Hthrown as ->.
    rewrite Hpr. unfold promise_agrees in Hp.
    destruct (Pool.promise p) as [[e'|u]|].
    + now apply (first_thrown_none _ e' Hnone) in Hp.
    + rewrite Forall_forall in Hp. apply nth_error_In in Hn.
      specialize (Hp _ Hn). discriminate.
    + apply settle_void_first. eapply first_thrown_set_nth; eauto.
Qed.

(** Fulfilled is the same as: every task has returned. *)
Lemma promise_agrees_fulfilled (p : Pool.t) :
  promise_agrees p ->
  Pool.promise p = Some (inr tt) <-> Forall (fun t => t = Ret tt) (Pool.tasks p).
Proof.
  unfold promise_agrees. intros Hp. split.
  - intros H. now rewrite H in Hp.
  - intros Hall. rewrite Forall_forall in Hall.
    destruct (Pool.promise p) as [[e|[]]|].
    + specialize (Hall _ Hp). discriminate.
    + reflexivity.
    + destruct Hp as [_ Hp]. apply existsb_exists in Hp as (t & Hin & Ht).
      rewrite (Hall _ Hin) in Ht. discriminate.
Qed.

Section WriteReport.

Variable operationSignature : option string -> option string -> Exn + string.
Variable normalizeTraceNode : TraceNode.t -> NormalizedTraceNodeMap.

Local Abbreviation wr := (writeReport operationSignature normalizeTraceNode).

Lemma writeReport_agrees scheds self report db :
  promise_agrees (wr scheds self report db).
Proof. unfold writeReport. apply promise_agrees_settle. Qed.

Lemma writeReport_tasks scheds self report db i trace :
  nth_error (Report.traces report) i = Some trace ->
  nth_error (Pool.tasks (wr scheds self report db)) i
  = Some (writeTrace operationSignature normalizeTraceNode (scheds i) self trace).
Proof.
  intros Hi. unfold writeReport. cbn [Pool.tasks]. unfold mapi.
  now rewrite mapi_from_nth, Hi.
Qed.

(** C2.  [writeReport] starts one [writeTrace] per trace of the report
    and awaits the [Promise.all] of their promises.  Whatever the store
    does afterwards, request by request, serving or rejecting the pending
    request of one write at a time:
    - there is one write per trace at all times: the write at position
      [i] starts as the [writeTrace] of trace [i] and is, later, what is
      left of it;
    - the pending request of a write is served, or rejected, whatever
      the other writes and the promise have come to, and no event changes
      a write other than its own;
    - the promise is fulfilled exactly when every write has returned;
    - when a write had thrown before the first request was answered, the
      promise is rejected with what the first such write, in the order of
      the traces, threw; otherwise, at the first event after which a
      write has thrown, the promise is rejected with what that write
      threw, and it stays so whatever the other writes do later;
    - as long as no write has thrown the promise is not rejected, and
      while it is pending a write is pending;
    - once settled the promise does not change, and every write can be
      served to its end afterwards. *)
Theorem C2_report_promise_is_promise_all scheds self report db history :
  let start := writeReport operationSignature normalizeTraceNode
                 scheds self report db in
  let p := pool_history history start in
  List.length (Pool.tasks p) = List.length (Report.traces report)
  /\ (forall i trace,
        nth_error (Report.traces report) i = Some trace ->
        nth_error (Pool.tasks start) i
        = Some (writeTrace operationSignature normalizeTraceNode (scheds i) self trace)
        /\ exists t,
             nth_error (Pool.tasks p) i = Some t
             /\ follows
                  (writeTrace operationSignature normalizeTraceNode (scheds i) self
                     trace)
                  t)
  /\ (forall i R (q : Req R) k,
        nth_error (Pool.tasks p) i = Some (Vis q k) ->
        (Pool.store (pool_event (Serve i) p) = snd (exec q (Pool.store p))
         /\ nth_error (Pool.tasks (pool_event (Serve i) p)) i
            = Some (k (fst (exec q (Pool.store p)))))
        /\ forall e,
             Pool.store (pool_event (Reject i e) p) = Pool.store p
             /\ nth_error (Pool.tasks (pool_event (Reject i e) p)) i
                = Some (Throw e))
  /\ (forall ev j,
        task_of ev <> j ->
        nth_error (Pool.tasks (pool_event ev p)) j = nth_error (Pool.tasks p) j)
  /\ (Pool.promise p = Some (inr tt)
      <-> Forall (fun t => t = Ret tt) (Pool.tasks p))
  /\ (forall e,
        first_thrown (Pool.tasks start) = Some e ->
        Pool.promise start = Some (inl e) /\ Pool.promise p = Some (inl e))
  /\ (forall before ev after e,
        history = before ++ ev :: after ->
        first_thrown (Pool.tasks (pool_history before start)) = None ->
        nth_error (Pool.tasks (pool_history (before ++ [ev]) start)) (task_of ev)
        = Some (Throw e) ->
        Pool.promise (pool_history (before ++ [ev]) start) = Some (inl e)
        /\ Pool.promise p = Some (inl e))
  /\ (first_thrown (Pool.tasks p) = None ->
        forall e, Pool.promise p <> Some (inl e))
  /\ (Pool.promise p = None ->
        existsb (fun t => negb (settled t)) (Pool.tasks p) = true)
  /\ (forall s more,
        Pool.promise p = Some s -> Pool.promise (pool_history more p) = Some s)
  /\ exists sched,
       forallb settled (Pool.tasks (pool_history (map Serve sched) p)) = true.
Proof.
  intros start p.
  assert (Hagree : forall h, promise_agrees (pool_history h start))
    by (intros h; apply pool_history_agrees, writeReport_agrees).
  assert (Hp : promise_agrees p) by apply Hagree.
  split.
  { unfold p. rewrite pool_history_length. unfold start, writeReport.
    cbn [Pool.tasks]. apply mapi_from_length. }
  split.
  { intros i trace Hi. split; [now apply writeReport_tasks|].
    apply pool_history_follows.
    exists (writeTrace operationSignature normalizeTraceNode (scheds i) self trace).
    split; [now apply writeReport_tasks | apply follows_start]. }
  split.
  { intros i R q k Hn. split.
    - exact (pool_step_pending i p q k Hn).
    - intros e. exact (pool_reject_pending i e p q k Hn). }
  split; [intros ev j Hj; now apply pool_event_other|].
  split; [now apply promise_agrees_fulfilled|].
  split.
  { intros e He.
    assert (Hs : Pool.promise start = Some (inl e))
      by (unfold start, writeReport; cbn [Pool.promise];
          now apply settle_void_first).
    split; [exact Hs | now apply pool_history_promise]. }
  split.
  { intros before ev after e Hh Hnone Hthrown.
    rewrite pool_history_app in Hthrown |- *.
    change (pool_history [ev] (pool_history before start))
      with (pool_event ev (pool_history before start)) in *.
    assert (Hfirst : Pool.promise (pool_event ev (pool_history before start))
                     = Some (inl e))
      by (apply pool_event_first_failure; auto).
    split; [exact Hfirst|].
    unfold p. rewrite Hh.
    change (before ++ ev :: after) with (before ++ [ev] ++ after).
    rewrite pool_history_app, pool_history_app.
    now apply pool_history_promise. }
  split.
  { intros Hnone e He. unfold promise_agrees in Hp. rewrite He in Hp.
    now apply (first_thrown_none _ e Hnone) in Hp. }
  split.
  { intros Hn. unfold promise_agrees in Hp. rewrite Hn in Hp. apply Hp. }
  split; [intros s more Hs; now apply pool_history_promise|].
  destruct (pool_completes p) as [sched Hs].
  exists sched. now rewrite pool_history_serve.
Qed.

Lemma pool_run_all_settled (sched : list nat) (p : Pool.t) :
  forallb settled (Pool.tasks p) = true -> pool_run sched p = p.
Proof.
  intros H. unfold pool_run.
  induction sched as [|i sched IH]; cbn; auto.
  assert (Hs : pool_step i p = p).
  { unfold pool_step.
    destruct (nth_error (Pool.tasks p) i) as [t|] eqn:Hn; auto.
    destruct t as [a|e|R q k]; auto.
    apply nth_error_In in Hn. rewrite forallb_forall in H.
    specialize (H _ Hn). discriminate. }
  now rewrite Hs.
Qed.

(** C10.  For a report without traces [writeReport] starts no write: its
    promise is fulfilled at once, and the store is the one it was called
    with, whatever is scheduled. *)
Theorem C10_empty_report_touches_nothing scheds self db sched :
  pool_run sched
    (writeReport operationSignature normalizeTraceNode scheds self
       (Report.mk []) db)
  = Pool.mk db [] (Some (inr tt)).
Proof. apply pool_run_all_settled. reflexivity. Qed.

Lemma writeTrace_no_client sched self trace :
  _client self = None ->
  writeTrace operationSignature normalizeTraceNode sched self trace
  = Throw (match operationSignature (Trace.query trace) (Trace.operationName trace) with
           | inl e => e
           | inr _ => JsError "Remember to init()"
           end).
Proof.
  intros Hc. unfold writeTrace, client. rewrite Hc.
  destruct (operationSignature _ _); reflexivity.
Qed.

Lemma mapi_from_thrown (f : Trace.t -> nat -> Prog unit) (g : Trace.t -> Exn)
    (traces : list Trace.t) (i : nat) :
  (forall trace j, f trace j = Throw (g trace)) ->
  mapi_from i f traces = map (fun trace => Throw (g trace)) traces.
Proof.
  intros H. revert i; induction traces as [|t traces IH]; intros i; cbn; auto.
  now rewrite H, IH.
Qed.

(** C9.  On an adapter whose [_client] is not set, each read accessor
    throws ['Remember to init()'] without a request to the store.
    [writeReport] of a report with at least one trace reaches the store
    with no request either: each of its writes has thrown before its
    first request, the store stays as it is, and the promise is rejected
    with what the write of the first trace threw, which is
    ['Remember to init()'] unless the signature of that trace could not
    be computed. *)
Theorem C9_no_client_no_request self :
  _client self = None ->
  readFields self = Throw (JsError "Remember to init()")
  /\ readOperations self = Throw (JsError "Remember to init()")
  /\ readOperationTraces self = Throw (JsError "Remember to init()")
  /\ readFieldTraces self = Throw (JsError "Remember to init()")
  /\ readErrors self = Throw (JsError "Remember to init()")
  /\ forall scheds trace traces db sched,
       let p := pool_run sched
                  (writeReport operationSignature normalizeTraceNode scheds self
                     (Report.mk (trace :: traces)) db) in
       Pool.store p = db
       /\ Forall (fun t => exists e, t = Throw e) (Pool.tasks p)
       /\ Pool.promise p
          = Some (inl (match operationSignature (Trace.query trace)
                               (Trace.operationName trace) with
                       | inl e => e
                       | inr _ => JsError "Remember to init()"
                       end)).
Proof.
  intros Hc.
  unfold readFields, readOperations, readOperationTraces, readFieldTraces,
    readErrors, client. rewrite Hc. cbn [bind].
  do 5 (split; [reflexivity|]).
  intros scheds trace traces db sched.
  set (p := pool_run sched (wr scheds self (Report.mk (trace :: traces)) db)).
  set (g := fun trace : Trace.t =>
              match operationSignature (Trace.query trace) (Trace.operationName trace) with
              | inl e => e
              | inr _ => JsError "Remember to init()"
              end).
  assert (Htasks : Pool.tasks (wr scheds self (Report.mk (trace :: traces)) db)
                   = map (fun trace => Throw (g trace)) (trace :: traces)).
  { unfold writeReport. cbn [Pool.tasks Report.traces]. unfold mapi.
    apply mapi_from_thrown. intros t j. now apply writeTrace_no_client. }
  assert (Hrun : p = wr scheds self (Report.mk (trace :: traces)) db).
  { apply pool_run_all_settled. rewrite Htasks.
    apply forallb_forall. intros t Hin.
    apply in_map_iff in Hin as (t' & <- & _). reflexivity. }
  rewrite Hrun. split; [reflexivity|]. split.
  - rewrite Htasks. apply Forall_forall. intros t Hin.
    apply in_map_iff in Hin as (t' & <- & _). eauto.
  - unfold writeReport. cbn [Pool.promise Report.traces].
    change (mapi _ (trace :: traces))
      with (Pool.tasks (wr scheds self (Report.mk (trace :: traces)) db)).
    rewrite Htasks. reflexivity.
Qed.

End WriteReport.

(* ================================================================== *)
(** * The flat node sequence *)

Lemma in_distinct (ks : list string) (k : string) :
  In k (distinct ks) <-> In k ks.
Proof.
  induction ks as [|k' ks IH]; cbn; [tauto|].
  rewrite filter_In, IH, negb_true_iff, String.eqb_neq.
  destruct (String.eqb_spec k' k); intuition congruence.
Qed.

Lemma NoDup_distinct (ks : list string) : NoDup (distinct ks).
Proof.
  induction ks as [|k ks IH]; cbn; constructor.
  - rewrite filter_In, negb_true_iff, String.eqb_neq. tauto.
  - now apply NoDup_filter.
Qed.

Lemma filter_all {A} (f : A -> bool) (l : list A) :
  (forall x, In x l -> f x = true) -> filter f l = l.
Proof.
  induction l as [|x l IH]; cbn; auto. intros H.
  rewrite (H x) by auto. f_equal. apply IH. auto.
Qed.

Lemma filter_none {A} (f : A -> bool) (l : list A) :
  (forall x, In x l -> f x = false) -> filter f l = [].
Proof.
  induction l as [|x l IH]; cbn; auto. intros H.
  rewrite (H x) by auto. apply IH. auto.
Qed.

Lemma distinct_snoc (ks : list string) (k : string) :
  distinct (ks ++ [k])
  = if existsb (String.eqb k) ks then distinct ks else distinct ks ++ [k].
Proof.
  induction ks as [|k' ks IH]; cbn; auto.
  rewrite IH. rewrite (String.eqb_sym k k').
  destruct (String.eqb_spec k' k) as [->|Hne]; cbn.
  - destruct (existsb (String.eqb k) ks); auto.
    rewrite filter_app. cbn. rewrite String.eqb_refl. cbn. now rewrite app_nil_r.
  - destruct (existsb (String.eqb k) ks); auto.
    rewrite filter_app. cbn.
    destruct (String.eqb_spec k' k); [congruence|]. reflexivity.
Qed.

Lemma distinct_NoDup (ks : list string) : NoDup ks -> distinct ks = ks.
Proof.
  induction 1 as [|k ks Hk _ IH]; cbn; auto.
  rewrite IH. f_equal. apply filter_all. intros k' Hin.
  apply negb_true_iff, String.eqb_neq. congruence.
Qed.

(** Reading and writing an object whose value at each key is [g] of the
    key. *)
Lemma obj_get_tabulate {V} (g : string -> V) (ks : list string) (k : string) :
  obj_get (map (fun k' => (k', g k')) ks) k
  = if existsb (String.eqb k) ks then Some (g k) else None.
Proof.
  induction ks as [|k' ks IH]; cbn; auto.
  rewrite (String.eqb_sym k k').
  destruct (String.eqb_spec k' k) as [->|Hne]; cbn; auto.
Qed.

Lemma obj_set_tabulate {V} (g g' : string -> V) (ks : list string) (k : string) :
  NoDup ks ->
  (forall k', k' <> k -> g' k' = g k') ->
  obj_set (map (fun k' => (k', g k')) ks) k (g' k)
  = if existsb (String.eqb k) ks
    then map (fun k' => (k', g' k')) ks
    else map (fun k' => (k', g' k')) (ks ++ [k]).
Proof.
  intros Hnd Hg. induction Hnd as [|k' ks Hk' Hnd IH]; cbn; auto.
  rewrite (String.eqb_sym k k').
  destruct (String.eqb_spec k' k) as [->|Hne]; cbn.
  - f_equal. apply map_ext_in. intros k' Hin. f_equal. symmetry. apply Hg.
    congruence.
  - rewrite IH. rewrite (Hg k') by auto.
    destruct (existsb (String.eqb k) ks); reflexivity.
Qed.

(** The normalized map in closed form: the keys of the traversal, each at
    its first occurrence, and under each key every node of the traversal
    that has the key, in the order of the traversal. *)
Lemma fold_collect_grouped (l : list NormalizedTraceNode.t) :
  fold_left Normalize.collect l []
  = map (fun k => (k, filter (has_key k) l)) (distinct (map Normalize.key l)).
Proof.
  induction l as [|n l IH] using rev_ind; [reflexivity|].
  rewrite fold_left_app. cbn [fold_left]. rewrite IH. clear IH.
  unfold Normalize.collect.
  pose (g := fun k => filter (has_key k) l).
  pose (g' := fun k => filter (has_key k) (l ++ [n])).
  change (fun k => (k, filter (has_key k) l)) with (fun k => (k, g k)).
  change (fun k => (k, filter (has_key k) (l ++ [n]))) with (fun k => (k, g' k)).
  rewrite obj_get_tabulate.
  assert (Hin : existsb (String.eqb (Normalize.key n)) (distinct (map Normalize.key l))
                = existsb (String.eqb (Normalize.key n)) (map Normalize.key l)).
  { apply eq_true_iff_eq. rewrite !existsb_exists.
    split; intros (k & Hk & He); exists k; split; auto;
      now apply in_distinct. }
  assert (Hg' : (if existsb (String.eqb (Normalize.key n)) (distinct (map Normalize.key l))
                 then g (Normalize.key n) ++ [n] else [n])
                = g' (Normalize.key n)).
  { unfold g, g'. rewrite filter_app. cbn. unfold has_key at 3.
    rewrite String.eqb_refl.
    destruct (existsb _ _) eqn:He; auto.
    rewrite filter_none; auto.
    intros x Hx. unfold has_key. apply String.eqb_neq. intros Hk.
    rewrite Hin in He.
    assert (Ht : existsb (String.eqb (Normalize.key n)) (map Normalize.key l) = true).
    { apply existsb_exists. exists (Normalize.key x). split.
      - now apply in_map.
      - rewrite Hk. apply String.eqb_refl. }
    congruence. }
  replace (match (if existsb (String.eqb (Normalize.key n))
                       (distinct (map Normalize.key l))
                  then Some (g (Normalize.key n)) else None) with
           | Some l0 => l0 ++ [n]
           | None => [n]
           end) with (g' (Normalize.key n))
    by (rewrite <- Hg'; destruct (existsb _ _); reflexivity).
  rewrite (obj_set_tabulate g g').
  - rewrite (map_app Normalize.key). cbn [map]. rewrite distinct_snoc, !Hin.
    destruct (existsb (String.eqb (Normalize.key n)) (map Normalize.key l));
      reflexivity.
  - apply NoDup_distinct.
  - intros k Hk. unfold g, g'. rewrite filter_app. cbn. unfold has_key at 2.
    destruct (String.eqb_spec (Normalize.key n) k); [congruence|].
    now rewrite app_nil_r.
Qed.

Lemma obj_set_absent {V} (o : Obj V) (k : string) (v : V) :
  obj_get o k = None -> obj_set o k v = o ++ [(k, v)].
Proof.
  induction o as [|[k' v'] o IH]; cbn; auto.
  destruct (String.eqb k' k); [discriminate|]. intros H. now rewrite IH.
Qed.

Lemma flatten_obj_set_snoc {A} (o : Obj (list A)) (k : string) (l : list A) (x : A) :
  obj_get o k = Some l ->
  Permutation (flatten (Object_values (obj_set o k (l ++ [x]))))
              (flatten (Object_values o) ++ [x]).
Proof.
  unfold flatten, Object_values.
  induction o as [|[k' v'] o IH]; cbn; [discriminate|].
  destruct (String.eqb k' k); cbn.
  - intros H; injection H as ->.
    rewrite <- !app_assoc. apply Permutation_app_head, Permutation_app_comm.
  - intros H. rewrite <- app_assoc. apply Permutation_app_head. now apply IH.
Qed.

Lemma flatten_collect (m : NormalizedTraceNodeMap) (n : NormalizedTraceNode.t) :
  Permutation (flatten (Object_values (Normalize.collect m n)))
              (flatten (Object_values m) ++ [n]).
Proof.
  unfold Normalize.collect.
  destruct (obj_get m (Normalize.key n)) as [l|] eqn:Hg.
  - now apply flatten_obj_set_snoc.
  - rewrite obj_set_absent by exact Hg.
    unfold flatten, Object_values. rewrite map_app, concat_app. cbn.
    rewrite ?app_nil_r. reflexivity.
Qed.

Lemma flatten_fold_collect (l : list NormalizedTraceNode.t)
    (m : NormalizedTraceNodeMap) :
  Permutation (flatten (Object_values (fold_left Normalize.collect l m)))
              (flatten (Object_values m) ++ l).
Proof.
  revert m; induction l as [|n l IH]; intros m; cbn [fold_left].
  - now rewrite app_nil_r.
  - rewrite IH, flatten_collect, <- app_assoc. reflexivity.
Qed.

Lemma flat_map_singletons_from (l pre : list NormalizedTraceNode.t) :
  NoDup (map Normalize.key (pre ++ l)) ->
  flat_map (fun k => filter (has_key k) (pre ++ l)) (map Normalize.key l) = l.
Proof.
  revert pre; induction l as [|x l IH]; intros pre Hp; cbn; auto.
  rewrite filter_app. cbn. unfold has_key at 2. rewrite String.eqb_refl.
  rewrite map_app in Hp. cbn in Hp.
  pose proof (NoDup_remove_2 _ _ _ Hp) as Hx.
  rewrite !filter_none.
  - cbn. f_equal.
    specialize (IH (pre ++ [x])). rewrite <- app_assoc in IH. cbn in IH.
    apply IH. rewrite map_app. cbn. exact Hp.
  - intros y Hy. unfold has_key. apply String.eqb_neq. intros Hk.
    apply Hx. apply in_or_app. right. rewrite <- Hk. now apply in_map.
  - intros y Hy. unfold has_key. apply String.eqb_neq. intros Hk.
    apply Hx. apply in_or_app. left. rewrite <- Hk. now apply in_map.
Qed.

Lemma flat_map_singletons (l : list NormalizedTraceNode.t) :
  NoDup (map Normalize.key l) ->
  flat_map (fun k => filter (has_key k) l) (map Normalize.key l) = l.
Proof. apply (flat_map_singletons_from l []). Qed.

(** C7.  The flat node sequence that [writeTrace] zips against the
    identifiers of the inserted FieldTrace rows lists the nodes of the
    pre-order traversal grouped by key: the keys in the order of their
    first occurrence in pre-order, and under each key its nodes in
    pre-order.  It is a permutation of the pre-order traversal, and it is
    the pre-order traversal itself when no key occurs twice. *)
Theorem C7_flat_sequence_is_preorder_grouped_by_key (entry : TraceNode.t) :
  let nodes := flatten (Object_values (Normalize.normalizeTraceNode entry)) in
  let pre := Normalize.preorder entry in
  nodes
  = flat_map (fun k => filter (has_key k) pre) (distinct (map Normalize.key pre))
  /\ Permutation nodes pre
  /\ (NoDup (map Normalize.key pre) -> nodes = pre).
Proof.
  intros nodes pre.
  assert (Hn : nodes
               = flat_map (fun k => filter (has_key k) pre)
                          (distinct (map Normalize.key pre))).
  { unfold nodes, Normalize.normalizeTraceNode. fold pre.
    rewrite fold_collect_grouped. unfold flatten, Object_values.
    rewrite map_map. cbn. now rewrite flat_map_concat_map. }
  split; [exact Hn|]. split.
  - unfold nodes, Normalize.normalizeTraceNode. fold pre.
    apply (flatten_fold_collect pre []).
  - intros Hnd. rewrite Hn, distinct_NoDup by exact Hnd.
    now apply flat_map_singletons.
Qed.

(* ================================================================== *)
(** * Field identities *)

Lemma typeFieldPairs_dot_free (pairs : list (string * string)) :
  Forall dot_free_pair pairs ->
  map typeFieldPair (map key_of_pair pairs) = map as_looked_up pairs.
Proof.
  induction 1 as [|[type field] pairs [Ht Hf] _ IH]; cbn [map]; auto.
  unfold key_of_pair at 1. cbn [fst snd] in *.
  rewrite typeFieldPair_dotted by assumption. now rewrite IH.
Qed.

Lemma obj_get_snoc {V} (o : Obj V) (k k' : string) (v : V) :
  obj_get o k' = None -> k <> k' -> obj_get (o ++ [(k, v)]) k' = None.
Proof.
  intros Ho Hk. induction o as [|[k0 v0] o IH]; cbn in *.
  - destruct (String.eqb_spec k k'); [contradiction | reflexivity].
  - destruct (String.eqb k0 k'); [discriminate | auto].
Qed.

Lemma obj_get_app_left {V} (o o' : Obj V) (k : string) :
  obj_get o k = None -> obj_get (o ++ o') k = obj_get o' k.
Proof.
  induction o as [|[k0 v0] o IH]; cbn; auto.
  destruct (String.eqb k0 k); [discriminate | auto].
Qed.

(** An object built by [reduce] from distinct keys holds, under the key
    of the element at index [j], the value written for index [j]. *)
Lemma reduce_obj_set {B V} (key : B -> string) (v : nat -> V)
    (f : Obj V -> B -> nat -> Obj V) (l : list B) :
  (forall acc x i, f acc x i = obj_set acc (key x) (v i)) ->
  NoDup (map key l) ->
  forall n acc,
    (forall x, In x l -> obj_get acc (key x) = None) ->
    reduce_from n f l acc = acc ++ mapi_from n (fun x i => (key x, v i)) l.
Proof.
  intros Hf. induction l as [|x l IH]; intros Hnd n acc Hacc; cbn.
  - now rewrite app_nil_r.
  - cbn in Hnd. apply NoDup_cons_iff in Hnd as [Hx Hnd].
    rewrite Hf, obj_set_absent by (apply Hacc; now left).
    rewrite IH; auto.
    + now rewrite <- app_assoc.
    + intros y Hy. apply obj_get_snoc; [apply Hacc; now right|].
      intros Hk. apply Hx. rewrite Hk. now apply in_map.
Qed.

Lemma obj_get_mapi_from {B V} (key : B -> string) (v : nat -> V) (l : list B) :
  NoDup (map key l) ->
  forall n j x, nth_error l j = Some x ->
    obj_get (mapi_from n (fun x i => (key x, v i)) l) (key x) = Some (v (n + j)).
Proof.
  induction l as [|y l IH]; intros Hnd n j x Hj; [now destruct j|].
  cbn in Hnd. apply NoDup_cons_iff in Hnd as [Hy Hnd].
  destruct j as [|j]; cbn in *.
  - injection Hj as ->. now rewrite String.eqb_refl, Nat.add_0_r.
  - destruct (String.eqb_spec (key y) (key x)) as [He|_].
    + exfalso. apply Hy. rewrite He. apply in_map. eapply nth_error_In; eauto.
    + rewrite (IH Hnd (S n) j x Hj). f_equal. f_equal. lia.
Qed.

Lemma field_id_fieldIdMap_of (pairs : list (string * option string))
    (ids : list Z) (j : nat) (pair : string * option string) :
  NoDup (map (fun p => dotted (fst p) (js_str (snd p))) pairs) ->
  nth_error pairs j = Some pair ->
  field_id (fieldIdMap_of pairs ids) (dotted (fst pair) (js_str (snd pair)))
  = nth_error ids j.
Proof.
  intros Hnd Hj. unfold field_id, fieldIdMap_of, reduce.
  rewrite (reduce_obj_set (fun p => dotted (fst p) (js_str (snd p)))
             (fun i => at_index ids i)); auto.
  - cbn [app].
    rewrite (obj_get_mapi_from (fun p => dotted (fst p) (js_str (snd p)))
               (fun i => at_index ids i) pairs Hnd 0 j pair Hj).
    reflexivity.
  - intros acc [type field] i. reflexivity.
Qed.

Lemma key_of_pair_injective (pairs : list (string * string)) :
  Forall dot_free_pair pairs -> NoDup pairs -> NoDup (map key_of_pair pairs).
Proof.
  intros Hfree Hnd. induction Hnd as [|p pairs Hp Hnd IH]; cbn; constructor.
  - intros Hin. apply in_map_iff in Hin as (p' & Hk & Hin').
    apply Forall_cons_iff in Hfree as [[Ht Hf] Hfree].
    rewrite Forall_forall in Hfree. destruct (Hfree _ Hin') as [Ht' Hf'].
    apply (f_equal typeFieldPair) in Hk. unfold key_of_pair in Hk.
    rewrite !typeFieldPair_dotted in Hk by assumption.
    apply Hp. destruct p, p'. cbn in *. congruence.
  - apply IH. now apply Forall_cons_iff in Hfree as [_ Hfree].
Qed.

(** C3.  For distinct pairs whose type and field names hold no dot,
    field resolution runs one lookup-or-insert per key of the map, for
    exactly the pair the key was made of; two different pairs are never
    looked up under the same type and name; whatever the order in which
    the store serves them, every lookup and every insert of the
    resolution is for one of the pairs, and the resolution returns; and
    what it returns sends the key of every pair to an identifier of that
    pair: the first identifier of its rows when it had any, which are
    then left as they were, and otherwise the identifier of the one row
    inserted for it. *)
Theorem C3_dot_free_pairs_are_resolved_one_by_one
    (pairs : list (string * string)) (traceNodeMap : NormalizedTraceNodeMap)
    (c : Knex) (self : PostgreSQLAdapter) (sched : list nat) :
  Forall dot_free_pair pairs ->
  NoDup pairs ->
  Object_keys traceNodeMap = map key_of_pair pairs ->
  _client self = Some c ->
  ensureFieldIdMap sched self traceNodeMap
  = (ids <- all sched (map (ensureFieldId self) (map as_looked_up pairs)) ;;
     Ret (fieldIdMap_of (map as_looked_up pairs) ids))
  /\ (forall p1 p2,
        In p1 pairs -> In p2 pairs ->
        typeFieldPair (key_of_pair p1) = typeFieldPair (key_of_pair p2) ->
        p1 = p2)
  /\ Safe (field_request (map as_looked_up pairs)) (fun _ => False)
          (ensureFieldIdMap sched self traceNodeMap)
  /\ forall db, exists fieldIdMap db',
       run (ensureFieldIdMap sched self traceNodeMap) db = (inr fieldIdMap, db')
       /\ fields_grown db db'
       /\ forall p, In p pairs ->
            exists i,
              field_id fieldIdMap (key_of_pair p) = Some i
              /\ resolved db db' (as_looked_up p) i.
Proof.
  intros Hfree Hnd Hkeys Hc.
  assert (Hpairs : map typeFieldPair (Object_keys traceNodeMap)
                   = map as_looked_up pairs)
    by (rewrite Hkeys; now apply typeFieldPairs_dot_free).
  assert (Hdef : ensureFieldIdMap sched self traceNodeMap
                 = (ids <- all sched (map (ensureFieldId self) (map as_looked_up pairs)) ;;
                    Ret (fieldIdMap_of (map as_looked_up pairs) ids)))
    by (unfold ensureFieldIdMap; now rewrite Hpairs).
  split; [exact Hdef|].
  split.
  { intros [t1 f1] [t2 f2] H1 H2.
    rewrite Forall_forall in Hfree.
    destruct (Hfree _ H1) as [Ht1 Hf1]. destruct (Hfree _ H2) as [Ht2 Hf2].
    unfold key_of_pair. cbn [fst snd] in *.
    rewrite !typeFieldPair_dotted by assumption. congruence. }
  split.
  { rewrite <- Hpairs. eapply Safe_ensureFieldIdMap; eauto. }
  intros db.
  destruct (ensureFieldIdMap_returns c sched self traceNodeMap db Hc)
    as (fieldIdMap & db' & Hrun & Hgrown).
  exists fieldIdMap, db'. split; [exact Hrun|]. split; [exact Hgrown|].
  rewrite Hdef, run_bind in Hrun.
  destruct (run (all sched (map (ensureFieldId self) (map as_looked_up pairs))) db)
    as [[e|ids] db1] eqn:Hall; [discriminate|].
  cbn [run] in Hrun. injection Hrun as <- <-.
  assert (Hnd' : NoDup (map as_looked_up pairs)).
  { apply NoDup_map_NoDup_ForallPairs; [|exact Hnd].
    intros [t1 f1] [t2 f2] _ _ H. unfold as_looked_up in H. cbn in H.
    congruence. }
  destruct (all_ensureFieldId_resolved c self sched _ db db1 ids Hc Hnd' Hall)
    as [_ Hres].
  intros p Hin. apply In_nth_error in Hin as [j Hj].
  assert (Hj' : nth_error (map as_looked_up pairs) j = Some (as_looked_up p))
    by (now rewrite nth_error_map, Hj).
  destruct (Hres j _ Hj') as (i & Hi & Hr).
  exists i. split; [|exact Hr].
  rewrite <- Hi.
  apply (field_id_fieldIdMap_of (map as_looked_up pairs) ids j (as_looked_up p));
    auto.
  rewrite map_map. cbn [as_looked_up fst snd js_str].
  now apply key_of_pair_injective.
Qed.

(* ================================================================== *)
(** * The claims on concrete traces *)

(** C1.  The trace of [query Q { user { name } }] whose node [user.name]
    carries one error, written to the empty store: the flat sequence is
    [user] (no error), [user.name] (one error); the FieldTrace rows
    generated for them are 1 and 2; the Error row of the error of
    [user.name] is owned by FieldTrace 1, the row of [user]. *)
Theorem C1_error_of_second_node_owned_by_row_of_first :
  let db' :=
    snd (run (writeTrace Normalize.operationSignature Normalize.normalizeTraceNode
                [] Example.adapter Example.trace) Tables.empty) in
  map (fun node =>
         (join_dot (NormalizedTraceNode.path node),
          map TraceError.message (NormalizedTraceNode.errors node)))
      (flatten (Object_values (Normalize.normalizeTraceNode Example.entry)))
  = [("user", []); ("user.name", ["boom"])]
  /\ map (fun r => (id r, FieldTraceModel.path (cols r))) (Tables.FieldTraces db')
     = [(1%Z, "user"); (2%Z, "user.name")]
  /\ map (fun r => (ErrorModel.fieldTraceId (cols r), ErrorModel.message (cols r)))
         (Tables.Errors db')
     = [(Some 1%Z, "boom")].
Proof. vm_compute. repeat split. Qed.

(** Against C2: the first trace of the report has no query, the second is
    well formed.  The promise of [writeReport] is rejected before the
    store has served any request, while the write of the second trace is
    pending; served afterwards, that write inserts its rows. *)
Lemma C2_promise_settles_while_a_write_is_pending :
  let p := writeReport Normalize.operationSignature Normalize.normalizeTraceNode
             (fun _ => []) Example.adapter
             (Report.mk [Example.malformed; Example.trace]) Tables.empty in
  ~ (Pool.promise p <> None -> forallb settled (Pool.tasks p) = true)
  /\ Pool.promise p = Some (inl (JsError "Cannot compute an operation signature"))
  /\ option_map settled (nth_error (Pool.tasks p) 1) = Some false
  /\ Pool.store p = Tables.empty
  /\ List.length
       (Tables.FieldTraces (Pool.store (pool_run (repeat 1 9) p))) = 2.
Proof.
  intros p. split; [|vm_compute; repeat split].
  intros H. assert (Hp : Pool.promise p <> None) by (vm_compute; discriminate).
  specialize (H Hp). vm_compute in H. discriminate.
Qed.

(** Against C3: two fields whose names hold a dot are looked up under one
    type and name, resolve to one Field row and leave one key in the map
    of field identifiers. *)
Lemma C3_dotted_pairs_are_merged :
  ("A", "b.c") <> ("A", "b.d")
  /\ typeFieldPair (key_of_pair ("A", "b.c")) = ("A", Some "b")
  /\ typeFieldPair (key_of_pair ("A", "b.d")) = ("A", Some "b")
  /\ run (ensureFieldIdMap [] Example.adapter Example.dotted_names) Tables.empty
     = (inr [("A.b", Some 1%Z)],
        Tables.mk [] [stored 1%Z (FieldModel.mk "A" (Some "b"))] [] [] [] []).
Proof. split; [discriminate|]. vm_compute. repeat split. Qed.

(** Against C7: the flat sequence of two list items with the same field
    below each is not their pre-order traversal. *)
Lemma C7_flat_sequence_is_not_preorder :
  map (fun node => join_dot (NormalizedTraceNode.path node))
      (flatten (Object_values (Normalize.normalizeTraceNode Example.items)))
  = ["first"; "first.name"; "second.name"; "second"]
  /\ map (fun node => join_dot (NormalizedTraceNode.path node))
         (Normalize.preorder Example.items)
     = ["first"; "first.name"; "second"; "second.name"]
  /\ flatten (Object_values (Normalize.normalizeTraceNode Example.items))
     <> Normalize.preorder Example.items.
Proof.
  split; [reflexivity|]. split; [reflexivity|].
  intros H.
  apply (f_equal (map (fun node => join_dot (NormalizedTraceNode.path node)))) in H.
  vm_compute in H. discriminate.
Qed.

(** Against C9: without a client, a report whose first trace has no
    query is rejected with the exception of the signature, not with
    ['Remember to init()']. *)
Lemma C9_first_trace_without_query_throws_its_own_error :
  _client Example.fresh = None
  /\ Pool.promise
       (writeReport Normalize.operationSignature Normalize.normalizeTraceNode
          (fun _ => []) Example.fresh
          (Report.mk [Example.malformed; Example.trace]) Tables.empty)
     = Some (inl (JsError "Cannot compute an operation signature"))
  /\ JsError "Cannot compute an operation signature"
     <> JsError "Remember to init()".
Proof. split; [reflexivity|]. split; [reflexivity|discriminate]. Qed.

(** ** The theorems at the trace of [query Q { user { name } }] *)

Lemma C3_resolved_example :
  Forall dot_free_pair [("Query", "user"); ("User", "name")]
  /\ NoDup [("Query", "user"); ("User", "name")]
  /\ Object_keys (Normalize.normalizeTraceNode Example.entry)
     = map key_of_pair [("Query", "user"); ("User", "name")]
  /\ _client Example.adapter = Some (knex "pg" "postgres://localhost/traces")
  /\ exists fieldIdMap db',
       run (ensureFieldIdMap [1; 0] Example.adapter
              (Normalize.normalizeTraceNode Example.entry)) Tables.empty
       = (inr fieldIdMap, db')
       /\ fields_grown Tables.empty db'
       /\ exists i,
            field_id fieldIdMap "User.name" = Some i
            /\ resolved Tables.empty db' ("User", Some "name") i.
Proof.
  assert (H1 : Forall dot_free_pair [("Query", "user"); ("User", "name")])
    by (repeat constructor).
  assert (H0 : NoDup [("Query", "user"); ("User", "name")]).
  { constructor; [cbn; intros [H|[]]; discriminate|].
    constructor; [cbn; tauto | constructor]. }
  assert (H2 : Object_keys (Normalize.normalizeTraceNode Example.entry)
               = map key_of_pair [("Query", "user"); ("User", "name")])
    by reflexivity.
  assert (H3 : _client Example.adapter = Some (knex "pg" "postgres://localhost/traces"))
    by reflexivity.
  split; [exact H1|]. split; [exact H0|]. split; [exact H2|]. split; [exact H3|].
  destruct (C3_dot_free_pairs_are_resolved_one_by_one
              [("Query", "user"); ("User", "name")]
              (Normalize.normalizeTraceNode Example.entry)
              (knex "pg" "postgres://localhost/traces")
              Example.adapter [1; 0] H1 H0 H2 H3) as (_ & _ & _ & H).
  destruct (H Tables.empty) as (fieldIdMap & db' & Hrun & Hg & Hres).
  exists fieldIdMap, db'. split; [exact Hrun|]. split; [exact Hg|].
  apply (Hres ("User", "name")). cbn. tauto.
Defined.

Lemma C4_linked_once_example :
  let w := writeTrace Normalize.operationSignature Normalize.normalizeTraceNode
             [] Example.adapter Example.trace in
  let db1 := snd (run w Tables.empty) in
  let db2 := snd (run w db1) in
  Normalize.operationSignature (Trace.query Example.trace)
    (Trace.operationName Example.trace)
  = inr "Q#query Q { user { name } }"
  /\ run w Tables.empty = (inr tt, db1)
  /\ run w db1 = (inr tt, db2)
  /\ List.length (Tables.OperationsFields db1) = 2
  /\ Tables.OperationsFields db2 = Tables.OperationsFields db1.
Proof.
  intros w db1 db2.
  assert (Hs : Normalize.operationSignature (Trace.query Example.trace)
                 (Trace.operationName Example.trace)
               = inr "Q#query Q { user { name } }") by reflexivity.
  assert (H1 : run w Tables.empty = (inr tt, db1)) by (vm_compute; reflexivity).
  assert (H2 : run w db1 = (inr tt, db2)) by (vm_compute; reflexivity).
  split; [exact Hs|]. split; [exact H1|]. split; [exact H2|].
  split; [reflexivity|].
  destruct (C4_operation_fields_linked_on_first_sighting_only
              Normalize.operationSignature Normalize.normalizeTraceNode
              [] Example.adapter Example.trace Tables.empty db1
              "Q#query Q { user { name } }" Hs H1) as (_ & _ & _ & Hlater).
  apply (Hlater db1 db2 [] Example.adapter Example.trace
           (later_now _ _ db1) Hs H2).
Defined.

Lemma C5_written_twice_example :
  let w := writeTrace Normalize.operationSignature Normalize.normalizeTraceNode
             [] Example.adapter Example.trace in
  let db1 := snd (run w Tables.empty) in
  let db2 := snd (run w db1) in
  run w Tables.empty = (inr tt, db1)
  /\ run w db1 = (inr tt, db2)
  /\ List.length (Tables.Operations db2) = 1
  /\ List.length (Tables.OperationTraces db1) = 1
  /\ List.length (Tables.OperationTraces db2) = 2.
Proof.
  intros w db1 db2.
  assert (H1 : run w Tables.empty = (inr tt, db1)) by (vm_compute; reflexivity).
  assert (H2 : run w db1 = (inr tt, db2)) by (vm_compute; reflexivity).
  split; [exact H1|]. split; [exact H2|].
  destruct (C5_same_operation_written_twice
              Normalize.operationSignature Normalize.normalizeTraceNode
              [] [] Example.adapter Example.trace Example.trace
              Tables.empty db1 db2 eq_refl eq_refl H1 H2)
    as (signature & operationId & Hs & Hops & Hot1 & Hot2).
  injection Hs as <-.
  rewrite Hot2, Hot1, Hops. repeat split.
Defined.

Lemma C6_owned_example :
  let db' :=
    snd (run (writeTrace Normalize.operationSignature Normalize.normalizeTraceNode
                [] Example.adapter Example.trace) Tables.empty) in
  run (writeTrace Normalize.operationSignature Normalize.normalizeTraceNode
         [] Example.adapter Example.trace) Tables.empty
  = (inr tt, db')
  /\ Forall exactly_one_owner (Tables.Errors db').
Proof.
  intros db'.
  assert (H : run (writeTrace Normalize.operationSignature
                     Normalize.normalizeTraceNode [] Example.adapter Example.trace)
                  Tables.empty
              = (inr tt, db')) by (vm_compute; reflexivity).
  split; [exact H|].
  destruct (C6_error_rows_have_exactly_one_owner
              Normalize.operationSignature Normalize.normalizeTraceNode
              [] Example.adapter Example.trace Tables.empty db' H)
    as (rows & oe & fe & _ & He & _ & _ & _ & Hone).
  rewrite He. exact Hone.
Defined.

Lemma C2_first_failure_example :
  let lost := JsError "connection lost" in
  let late := JsError "timeout" in
  let history := [Serve 0; Reject 1 lost; Serve 0; Reject 0 late; Serve 1] in
  let p := pool_history history
             (writeReport Normalize.operationSignature Normalize.normalizeTraceNode
                (fun _ => []) Example.adapter
                (Report.mk [Example.trace; Further.other]) Tables.empty) in
  Pool.tasks p = [Throw late; Throw lost]
  /\ Pool.promise p = Some (inl lost)
  /\ List.length (Tables.Operations (Pool.store p)) = 1.
Proof.
  intros lost late history p.
  split; [vm_compute; reflexivity|].
  split; [|vm_compute; reflexivity].
  destruct (C2_report_promise_is_promise_all
              Normalize.operationSignature Normalize.normalizeTraceNode
              (fun _ => []) Example.adapter
              (Report.mk [Example.trace; Further.other]) Tables.empty history)
    as (_ & _ & _ & _ & _ & _ & Hfirst & _).
  apply (Hfirst [Serve 0] (Reject 1 lost) [Serve 0; Reject 0 late; Serve 1] lost).
  - reflexivity.
  - vm_compute. reflexivity.
  - vm_compute. reflexivity.
Defined.

Lemma C9_fresh_adapter_example :
  _client Example.fresh = None
  /\ readFields Example.fresh = Throw (JsError "Remember to init()")
  /\ Pool.promise
       (pool_run [0; 1]
          (writeReport Normalize.operationSignature Normalize.normalizeTraceNode
             (fun _ => []) Example.fresh
             (Report.mk [Example.trace; Example.malformed]) Tables.empty))
     = Some (inl (JsError "Remember to init()")).
Proof.
  assert (H : _client Example.fresh = None) by reflexivity.
  split; [exact H|].
  destruct (C9_no_client_no_request
              Normalize.operationSignature Normalize.normalizeTraceNode
              Example.fresh H) as (Hr & _ & _ & _ & _ & Hw).
  split; [exact Hr|].
  destruct (Hw (fun _ => []) Example.trace [Example.malformed] Tables.empty [0; 1])
    as (_ & _ & Hp).
  exact Hp.
Defined.

(* ================================================================== *)
(** * Further properties of the adapter *)

(** ** Two first sightings at once *)

Lemma existsb_false_filter {A} (f : A -> bool) (l : list A) :
  existsb f l = false -> filter f l = [].
Proof.
  induction l as [|x l IH]; cbn; auto.
  destruct (f x); cbn; [discriminate | auto].
Qed.

Section Race.

Variable operationSignature : option string -> option string -> Exn + string.
Variable normalizeTraceNode : TraceNode.t -> NormalizedTraceNodeMap.

(** The first two requests of a trace write: the lookup of its signature
    and, when nothing is found, the insert of its operation. *)
Lemma writeTrace_head sched self trace c signature :
  _client self = Some c ->
  operationSignature (Trace.query trace) (Trace.operationName trace)
  = inr signature ->
  exists k,
    writeTrace operationSignature normalizeTraceNode sched self trace
    = Vis (SelectOperationIds signature) k
    /\ exists k',
         k [] = Vis (InsertOperation
                       (OperationModel.mk (Trace.query trace)
                          (Trace.operationName trace) signature)) k'.
Proof.
  intros Hc Hs. destruct self as [cfg cl]. cbn in Hc. subst cl.
  unfold writeTrace. rewrite Hs. cbn [attempt bind client _client await].
  eexists. split; [reflexivity|]. cbn [hd_error bind client _client await].
  eexists. reflexivity.
Qed.

(** X3.  Two traces of one report with the same signature, not stored
    yet: when the store serves the two lookups before the two inserts,
    each write finds nothing and inserts the operation, and the store
    holds two Operation rows with that signature. *)
Theorem concurrent_first_sightings_insert_the_operation_twice
    scheds self c trace1 trace2 signature db :
  _client self = Some c ->
  operationSignature (Trace.query trace1) (Trace.operationName trace1)
  = inr signature ->
  operationSignature (Trace.query trace2) (Trace.operationName trace2)
  = inr signature ->
  known signature db = false ->
  Tables.Operations
    (Pool.store
       (pool_run [0; 1; 0; 1]
          (writeReport operationSignature normalizeTraceNode scheds self
             (Report.mk [trace1; trace2]) db)))
  = Tables.Operations db
      ++ [stored (next_id (Tables.Operations db))
            (OperationModel.mk (Trace.query trace1)
               (Trace.operationName trace1) signature);
          stored (next_id (Tables.Operations db) + 1)%Z
            (OperationModel.mk (Trace.query trace2)
               (Trace.operationName trace2) signature)].
Proof.
  intros Hc Hs1 Hs2 Hk.
  destruct (writeTrace_head (scheds 0) self trace1 c signature Hc Hs1)
    as (k1 & Hw1 & k1' & Hk1).
  destruct (writeTrace_head (scheds 1) self trace2 c signature Hc Hs2)
    as (k2 & Hw2 & k2' & Hk2).
  unfold writeReport, mapi. cbn [Report.traces mapi_from].
  rewrite Hw1, Hw2.
  apply existsb_false_filter in Hk.
  destruct db as [ops flds ofs ots fts errs]. cbn [Tables.Operations] in *.
  unfold pool_run. cbn [fold_left].
  unfold pool_step at 4. cbn [Pool.tasks Pool.store nth_error exec set_nth].
  rewrite Hk. cbn [map]. rewrite Hk1.
  unfold pool_step at 3. cbn [Pool.tasks Pool.store nth_error exec set_nth].
  rewrite Hk. cbn [map]. rewrite Hk2.
  unfold pool_step at 2. cbn [Pool.tasks Pool.store nth_error exec set_nth].
  unfold pool_step at 1. cbn [Pool.tasks Pool.store nth_error exec set_nth].
  cbn [Tables.Operations]. rewrite <- app_assoc. cbn [app].
  replace (next_id (ops ++ [stored (next_id ops)
                              (OperationModel.mk (Trace.query trace1)
                                 (Trace.operationName trace1) signature)]))
    with (next_id ops + 1)%Z; [reflexivity|].
  unfold next_id. rewrite length_app. cbn [List.length]. lia.
Qed.

End Race.

(** ** Field resolution, one call after another *)

Lemma rebuilt_keys (keys : list string) :
  map (fun p : string * option string => dotted (fst p) (js_str (snd p)))
      (map typeFieldPair keys)
  = map rebuilt_key keys.
Proof. now rewrite map_map. Qed.

Lemma rebuilt_key_dot_free (type field : string) :
  dot_free type = true -> dot_free field = true ->
  rebuilt_key (dotted type field) = dotted type field.
Proof.
  intros Ht Hf. unfold rebuilt_key. now rewrite typeFieldPair_dotted.
Qed.

(** What field resolution returns is built from the identifiers its
    lookups returned. *)
Lemma ensureFieldIdMap_shape sched self m db f db' :
  run (ensureFieldIdMap sched self m) db = (inr f, db') ->
  exists ids,
    run (all sched (map (ensureFieldId self) (map typeFieldPair (Object_keys m)))) db
    = (inr ids, db')
    /\ f = fieldIdMap_of (map typeFieldPair (Object_keys m)) ids.
Proof.
  unfold ensureFieldIdMap. rewrite run_bind.
  destruct (run (all sched _) db) as [[e|ids] db1]; [discriminate|].
  cbn [run]. intros H. injection H as <- <-. eauto.
Qed.

Lemma ensureFieldIdMap_resolved c sched self m db f db' :
  _client self = Some c ->
  NoDup (map rebuilt_key (Object_keys m)) ->
  run (ensureFieldIdMap sched self m) db = (inr f, db') ->
  forall key, In key (Object_keys m) ->
    exists i,
      field_id f (rebuilt_key key) = Some i
      /\ resolved db db' (typeFieldPair key) i.
Proof.
  intros Hc Hnd Hrun key Hin.
  destruct (ensureFieldIdMap_shape _ _ _ _ _ _ Hrun) as (ids & Hall & ->).
  assert (Hnd' : NoDup (map typeFieldPair (Object_keys m))).
  { rewrite <- rebuilt_keys in Hnd. now apply NoDup_map_inv in Hnd. }
  destruct (all_ensureFieldId_resolved c self sched _ db db' ids Hc Hnd' Hall)
    as [_ Hres].
  apply In_nth_error in Hin as [j Hj].
  assert (Hj' : nth_error (map typeFieldPair (Object_keys m)) j
                = Some (typeFieldPair key)) by (now rewrite nth_error_map, Hj).
  destruct (Hres j _ Hj') as (i & Hi & Hr).
  exists i. split; [|exact Hr]. rewrite <- Hi.
  apply (field_id_fieldIdMap_of (map typeFieldPair (Object_keys m)) ids j
           (typeFieldPair key)); auto.
  now rewrite rebuilt_keys.
Qed.

Lemma resolved_first_id db db' pair i :
  resolved db db' pair i ->
  hd_error (map (@id _) (field_rows pair db')) = Some i.
Proof.
  intros [[Hhd Hrows]|[_ Hrows]]; rewrite Hrows; auto.
Qed.

Lemma first_id_row pair db i :
  hd_error (map (@id _) (field_rows pair db)) = Some i ->
  In (stored i (FieldModel.mk (fst pair) (snd pair))) (Tables.Fields db).
Proof.
  unfold field_rows.
  destruct (filter _ (Tables.Fields db)) as [|r rows] eqn:Hf; [discriminate|].
  cbn. intros H. injection H as <-.
  assert (Hin : In r (filter (is_field (fst pair) (snd pair)) (Tables.Fields db)))
    by (rewrite Hf; now left).
  apply filter_In in Hin as [Hin Hr]. apply is_field_true in Hr.
  destruct r as [i c]. cbn in *. now subst c.
Qed.

Lemma resolved_row db db' pair i :
  resolved db db' pair i ->
  In (stored i (FieldModel.mk (fst pair) (snd pair))) (Tables.Fields db').
Proof. intros H. now apply first_id_row, resolved_first_id with db. Qed.

(** A pair that has rows is found: its first identifier is returned and
    its rows stay as they are. *)
Lemma resolved_known db db' pair i j :
  hd_error (map (@id _) (field_rows pair db)) = Some i ->
  resolved db db' pair j ->
  j = i /\ field_rows pair db' = field_rows pair db.
Proof.
  intros Hhd [[Hhd' Hrows]|[Hnone _]].
  - split; [congruence | exact Hrows].
  - rewrite Hnone in Hhd. discriminate.
Qed.

Lemma exec_rows_of_pairs ps {R} (q : Req R) (db : Tables.t) :
  field_request ps q ->
  exists new,
    Tables.Fields (snd (exec q db)) = Tables.Fields db ++ new
    /\ rows_of_pairs ps new.
Proof.
  destruct db as [ops flds ofs ots fts errs].
  destruct q; cbn; try contradiction; intros Hq.
  - exists []. split; [now rewrite app_nil_r | constructor].
  - exists [stored (next_id flds) row]. split; auto.
    constructor; [exact Hq | constructor].
Qed.

(** The rows a program of field requests adds to [Fields] are rows of the
    pairs it was made for. *)
Lemma run_rows_of_pairs ps (T : Exn -> Prop) {A} (p : Prog A) (db : Tables.t) :
  Safe (field_request ps) T p ->
  exists new,
    Tables.Fields (snd (run p db)) = Tables.Fields db ++ new
    /\ rows_of_pairs ps new.
Proof.
  revert db; induction p as [a|e|R q k IH]; cbn [run Safe]; intros db H.
  - exists []. split; [now rewrite app_nil_r | constructor].
  - exists []. split; [now rewrite app_nil_r | constructor].
  - destruct H as [Hq Hk].
    destruct (exec_rows_of_pairs ps q db Hq) as (n1 & H1 & R1).
    destruct (exec q db) as [r db1]. cbn [snd] in H1.
    destruct (IH r db1 (Hk r)) as (n2 & H2 & R2).
    exists (n1 ++ n2). split.
    + now rewrite H2, H1, app_assoc.
    + apply Forall_app. split; assumption.
Qed.

Lemma tables_eq (a b : Tables.t) :
  Tables.Operations a = Tables.Operations b ->
  Tables.Fields a = Tables.Fields b ->
  Tables.OperationsFields a = Tables.OperationsFields b ->
  Tables.OperationTraces a = Tables.OperationTraces b ->
  Tables.FieldTraces a = Tables.FieldTraces b ->
  Tables.Errors a = Tables.Errors b ->
  a = b.
Proof. destruct a, b. cbn. intros; subst; reflexivity. Qed.

(** X4.  Field resolution is idempotent.  For a map whose rebuilt keys
    are distinct, a second resolution right after a first, whatever the
    two orders in which the store serves the lookups, returns the same
    map of identifiers and changes nothing in the store. *)
Theorem ensureFieldIdMap_again_changes_nothing
    c sched1 sched2 self m db f1 db1 f2 db2 :
  _client self = Some c ->
  NoDup (map rebuilt_key (Object_keys m)) ->
  run (ensureFieldIdMap sched1 self m) db = (inr f1, db1) ->
  run (ensureFieldIdMap sched2 self m) db1 = (inr f2, db2) ->
  f2 = f1 /\ db2 = db1.
Proof.
  intros Hc Hnd Hrun1 Hrun2.
  set (pairs := map typeFieldPair (Object_keys m)).
  assert (Hnd' : NoDup pairs).
  { rewrite <- rebuilt_keys in Hnd. now apply NoDup_map_inv in Hnd. }
  destruct (ensureFieldIdMap_shape _ _ _ _ _ _ Hrun1) as (ids1 & Hall1 & ->).
  destruct (ensureFieldIdMap_shape _ _ _ _ _ _ Hrun2) as (ids2 & Hall2 & ->).
  fold pairs in Hall1, Hall2 |- *.
  destruct (all_ensureFieldId_resolved c self sched1 pairs db db1 ids1 Hc Hnd' Hall1)
    as [Hl1 Hr1].
  destruct (all_ensureFieldId_resolved c self sched2 pairs db1 db2 ids2 Hc Hnd' Hall2)
    as [Hl2 Hr2].
  assert (Hsame : forall j pair, nth_error pairs j = Some pair ->
                    nth_error ids2 j = nth_error ids1 j
                    /\ field_rows pair db2 = field_rows pair db1).
  { intros j pair Hj.
    destruct (Hr1 j pair Hj) as (i1 & Hi1 & Hres1).
    destruct (Hr2 j pair Hj) as (i2 & Hi2 & Hres2).
    destruct (resolved_known _ _ _ _ _ (resolved_first_id _ _ _ _ Hres1) Hres2)
      as [-> Hrows].
    split; [congruence | exact Hrows]. }
  assert (Hids : ids2 = ids1).
  { apply nth_error_ext. intros j.
    destruct (nth_error pairs j) as [pair|] eqn:Hj.
    - now apply (Hsame j pair).
    - apply nth_error_None in Hj.
      rewrite (proj2 (nth_error_None ids1 j)), (proj2 (nth_error_None ids2 j));
        auto; lia. }
  split; [now rewrite Hids|].
  pose proof (Safe_ensureFieldIdMap c sched2 self m Hc) as Hsafe.
  pose proof (run_fields_grown _ _ _ db1 Hsafe) as Hg.
  destruct (run_rows_of_pairs _ _ _ db1 Hsafe) as (new & Hnew & Hof).
  rewrite Hrun2 in Hg, Hnew. cbn [snd] in Hg, Hnew.
  destruct Hg as (G1 & G2 & G3 & G4 & G5 & _).
  assert (Hnil : new = []).
  { destruct new as [|r new]; auto. exfalso.
    apply Forall_inv in Hof. fold pairs in Hof.
    apply In_nth_error in Hof as [j Hj].
    destruct (Hsame j _ Hj) as [_ Hrows].
    unfold field_rows in Hrows. rewrite Hnew, filter_app in Hrows.
    cbn [fst snd filter] in Hrows.
    replace (is_field (FieldModel.type (cols r)) (FieldModel.name (cols r)) r)
      with true in Hrows
      by (symmetry; apply is_field_true; now destruct r as [i []]).
    apply (f_equal (@List.length _)) in Hrows.
    rewrite length_app in Hrows. cbn [List.length] in Hrows. lia. }
  subst new. rewrite app_nil_r in Hnew.
  apply tables_eq; auto.
Qed.

(** ** The field identifiers of the FieldTrace rows *)

Lemma count_dots_dot_free (s : string) :
  dot_free s = true <-> count_dots s = 0.
Proof.
  induction s as [|c s IH]; cbn; [tauto|].
  destruct (Ascii.eqb c "."); cbn.
  - split; [discriminate | lia].
  - exact IH.
Qed.

Lemma count_dots_dotted (a b : string) :
  count_dots (dotted a b) = count_dots a + 1 + count_dots b.
Proof.
  unfold dotted. change (String.append "." b) with (String "." b).
  induction a as [|c a IH]; cbn [String.append count_dots].
  - reflexivity.
  - rewrite IH. lia.
Qed.

Lemma split_dot_components (s : string) :
  count_dots (fst (split_dot s)) = 0
  /\ Forall (fun x => count_dots x = 0) (snd (split_dot s)).
Proof.
  induction s as [|c s [IH1 IH2]]; cbn [split_dot].
  - cbn. auto.
  - destruct (split_dot s) as [h t]. cbn [fst snd] in *.
    destruct (Ascii.eqb c ".") eqn:Hc; cbn [fst snd count_dots].
    + split; auto.
    + rewrite Hc. split; auto.
Qed.

(** Every key of the map of field identifiers holds exactly one dot. *)
Lemma rebuilt_key_one_dot (i : string) : count_dots (rebuilt_key i) = 1.
Proof.
  unfold rebuilt_key, typeFieldPair.
  destruct (split_dot_components i) as [H1 H2].
  destruct (split_dot i) as [type rest]. cbn [fst snd] in *.
  rewrite count_dots_dotted, H1.
  destruct rest as [|field rest]; cbn [hd_error js_str].
  - reflexivity.
  - apply Forall_inv in H2. rewrite H2. reflexivity.
Qed.

Lemma obj_get_obj_set_in {V} (o : Obj V) (k k' : string) (v v' : V) :
  obj_get (obj_set o k v) k' = Some v' ->
  k' = k \/ obj_get o k' = Some v'.
Proof.
  induction o as [|[k0 v0] o IH]; cbn.
  - destruct (String.eqb_spec k k'); [auto | discriminate].
  - destruct (String.eqb_spec k0 k) as [->|Hne]; cbn.
    + destruct (String.eqb_spec k k'); auto.
    + destruct (String.eqb_spec k0 k'); auto.
Qed.

Lemma fieldIdMap_of_keys (pairs : list (string * option string)) (ids : list Z)
    (k : string) (v : option Z) :
  obj_get (fieldIdMap_of pairs ids) k = Some v ->
  In k (map (fun p => dotted (fst p) (js_str (snd p))) pairs).
Proof.
  unfold fieldIdMap_of, reduce.
  assert (H : forall n acc,
             obj_get (reduce_from n
                        (fun acc (pair : string * option string) i =>
                           let (type, field) := pair in
                           obj_set acc (dotted type (js_str field)) (at_index ids i))
                        pairs acc) k = Some v ->
             In k (map (fun p => dotted (fst p) (js_str (snd p))) pairs)
             \/ obj_get acc k = Some v).
  { induction pairs as [|[type field] pairs IH]; intros n acc Hg; cbn in *; auto.
    destruct (IH _ _ Hg) as [Hin|Hacc]; auto.
    apply obj_get_obj_set_in in Hacc as [->|Hacc]; auto. }
  intros Hg. destruct (H 0 [] Hg) as [Hin|Hnil]; [exact Hin | discriminate].
Qed.

Section FieldTraceIds.

Variable operationSignature : option string -> option string -> Exn + string.
Variable normalizeTraceNode : TraceNode.t -> NormalizedTraceNodeMap.

Local Abbreviation wt := (writeTrace operationSignature normalizeTraceNode).
Local Abbreviation keys_of trace :=
  (Object_keys (normalizeTraceNode (Trace.entry trace))).
Local Abbreviation nodes_of trace :=
  (flatten (Object_values (normalizeTraceNode (Trace.entry trace)))).

(** The FieldTrace row of the node at position [k], and the resolution
    its field identifier comes from. *)
Lemma writeTrace_field_trace_at sched self trace db db' :
  run (wt sched self trace) db = (inr tt, db') ->
  exists c db0 fieldIdMap dbf,
    _client self = Some c
    /\ Tables.Fields db0 = Tables.Fields db
    /\ run (ensureFieldIdMap sched self (normalizeTraceNode (Trace.entry trace))) db0
       = (inr fieldIdMap, dbf)
    /\ Tables.Fields db' = Tables.Fields dbf
    /\ forall k node,
         nth_error (nodes_of trace) k = Some node ->
         exists r,
           nth_error (Tables.FieldTraces db')
                     (List.length (Tables.FieldTraces db) + k) = Some r
           /\ FieldTraceModel.path (cols r)
              = join_dot (NormalizedTraceNode.path node)
           /\ FieldTraceModel.fieldId (cols r)
              = field_id fieldIdMap
                  (dotted (NormalizedTraceNode.parentType node)
                          (NormalizedTraceNode.field node)).
Proof.
  intros Hrun.
  destruct (writeTrace_ok_inv _ _ _ _ _ _ _ Hrun) as [[c Hc] _].
  destruct (writeTrace_ok _ _ _ _ _ _ _ Hrun)
    as (signature & fieldIdMap & dbf & Hs & Hf & Hg & ->).
  exists c, (snd (resolved_operation signature trace db)), fieldIdMap, dbf.
  split; [exact Hc|]. split.
  { unfold resolved_operation. destruct (hd_error _); reflexivity. }
  split; [exact Hf|]. split; [reflexivity|].
  intros k node Hk.
  destruct (resolved_operation_traces signature trace db) as (_ & R2 & _).
  destruct Hg as (_ & _ & _ & G4 & _).
  unfold written, fieldTrace_rows. cbn [Tables.FieldTraces].
  rewrite G4, R2.
  rewrite nth_error_app2 by lia.
  replace (List.length (Tables.FieldTraces db) + k
           - List.length (Tables.FieldTraces db)) with k by lia.
  unfold number_from. rewrite mapi_from_nth, nth_error_map, Hk. cbn [option_map].
  eexists. split; [reflexivity|]. split; reflexivity.
Qed.

(** X5.  A node whose key is a key of the normalized map, with a type
    and a field name that hold no dot: its FieldTrace row holds a field
    identifier, and that identifier is the one of a Field row that holds
    the type and the field name of the node. *)
Theorem field_trace_refers_to_the_field_of_its_node
    sched self trace db db' k node :
  run (writeTrace operationSignature normalizeTraceNode sched self trace) db
  = (inr tt, db') ->
  NoDup (map rebuilt_key (Object_keys (normalizeTraceNode (Trace.entry trace)))) ->
  nth_error (flatten (Object_values (normalizeTraceNode (Trace.entry trace)))) k
  = Some node ->
  In (dotted (NormalizedTraceNode.parentType node) (NormalizedTraceNode.field node))
     (Object_keys (normalizeTraceNode (Trace.entry trace))) ->
  dot_free (NormalizedTraceNode.parentType node) = true ->
  dot_free (NormalizedTraceNode.field node) = true ->
  exists r i,
    nth_error (Tables.FieldTraces db') (List.length (Tables.FieldTraces db) + k)
    = Some r
    /\ FieldTraceModel.path (cols r) = join_dot (NormalizedTraceNode.path node)
    /\ FieldTraceModel.fieldId (cols r) = Some i
    /\ In (stored i
             (FieldModel.mk (NormalizedTraceNode.parentType node)
                (Some (NormalizedTraceNode.field node))))
          (Tables.Fields db').
Proof.
  intros Hrun Hnd Hk Hin Ht Hf.
  destruct (writeTrace_field_trace_at _ _ _ _ _ Hrun)
    as (c & db0 & fieldIdMap & dbf & Hc & _ & Hres & Hfields & Hrows).
  destruct (Hrows k node Hk) as (r & Hr & Hpath & Hid).
  destruct (ensureFieldIdMap_resolved c _ _ _ _ _ _ Hc Hnd Hres _ Hin)
    as (i & Hi & Hresolved).
  rewrite rebuilt_key_dot_free in Hi by assumption.
  rewrite typeFieldPair_dotted in Hresolved by assumption.
  exists r, i. split; [exact Hr|]. split; [exact Hpath|].
  split; [now rewrite Hid|].
  rewrite Hfields. apply (resolved_row _ _ _ _ Hresolved).
Qed.

(** X6.  A node whose type or field name holds a dot: its FieldTrace row
    holds no field identifier. *)
Theorem field_trace_of_dotted_name_has_no_field
    sched self trace db db' k node :
  run (writeTrace operationSignature normalizeTraceNode sched self trace) db
  = (inr tt, db') ->
  nth_error (flatten (Object_values (normalizeTraceNode (Trace.entry trace)))) k
  = Some node ->
  dot_free (NormalizedTraceNode.parentType node)
  && dot_free (NormalizedTraceNode.field node) = false ->
  exists r,
    nth_error (Tables.FieldTraces db') (List.length (Tables.FieldTraces db) + k)
    = Some r
    /\ FieldTraceModel.path (cols r) = join_dot (NormalizedTraceNode.path node)
    /\ FieldTraceModel.fieldId (cols r) = None.
Proof.
  intros Hrun Hk Hdot.
  destruct (writeTrace_field_trace_at _ _ _ _ _ Hrun)
    as (c & db0 & fieldIdMap & dbf & Hc & _ & Hres & Hfields & Hrows).
  destruct (Hrows k node Hk) as (r & Hr & Hpath & Hid).
  exists r. split; [exact Hr|]. split; [exact Hpath|].
  rewrite Hid. unfold field_id.
  destruct (obj_get fieldIdMap _) as [v|] eqn:Hg; [|reflexivity].
  exfalso.
  destruct (ensureFieldIdMap_shape _ _ _ _ _ _ Hres) as (ids & _ & ->).
  apply fieldIdMap_of_keys in Hg. rewrite rebuilt_keys in Hg.
  apply in_map_iff in Hg as (key & Hkey & _).
  apply (f_equal count_dots) in Hkey.
  rewrite rebuilt_key_one_dot, count_dots_dotted in Hkey.
  apply andb_false_iff in Hdot as [Hd|Hd];
    destruct (count_dots_dot_free (NormalizedTraceNode.parentType node)) as [_ H1];
    destruct (count_dots_dot_free (NormalizedTraceNode.field node)) as [_ H2].
  - rewrite H1 in Hd by lia. discriminate.
  - rewrite H2 in Hd by lia. discriminate.
Qed.

End FieldTraceIds.

(** ** The map of field identifiers and the links of an operation *)

Lemma mapi_from_keys {B V} (key : B -> string) (v : nat -> V) (l : list B) (n : nat) :
  map fst (mapi_from n (fun x i => (key x, v i)) l) = map key l.
Proof. revert n; induction l; intros n; cbn; f_equal; auto. Qed.

Lemma mapi_from_values {B V} (key : B -> string) (v : nat -> V) (l : list B) (n : nat) :
  map snd (mapi_from n (fun x i => (key x, v i)) l) = map v (seq n (List.length l)).
Proof. revert n; induction l; intros n; cbn; f_equal; auto. Qed.

Lemma at_index_all {A} (a : list A) :
  map (at_index a) (seq 0 (List.length a)) = map Some a.
Proof.
  unfold at_index.
  assert (H : forall pre, map (nth_error (pre ++ a))
                              (seq (List.length pre) (List.length a))
                          = map Some a).
  { induction a as [|x a IH]; intros pre; cbn [List.length seq map]; auto.
    rewrite nth_error_app_mid. f_equal.
    specialize (IH (pre ++ [x])). rewrite <- app_assoc, length_app in IH.
    cbn in IH. now replace (S (List.length pre)) with (List.length pre + 1) by lia. }
  apply (H []).
Qed.

Lemma fieldIdMap_of_distinct (pairs : list (string * option string)) (ids : list Z) :
  NoDup (map (fun p => dotted (fst p) (js_str (snd p))) pairs) ->
  List.length ids = List.length pairs ->
  Object_keys (fieldIdMap_of pairs ids)
  = map (fun p => dotted (fst p) (js_str (snd p))) pairs
  /\ Object_values (fieldIdMap_of pairs ids) = map Some ids.
Proof.
  intros Hnd Hlen. unfold fieldIdMap_of, reduce, Object_keys, Object_values.
  rewrite (reduce_obj_set (fun p => dotted (fst p) (js_str (snd p)))
             (fun i => at_index ids i)); auto.
  - cbn [app]. rewrite mapi_from_keys, mapi_from_values, <- Hlen.
    split; [reflexivity | now apply at_index_all].
  - intros acc [type field] i. reflexivity.
Qed.

Lemma Forall2_pointwise {A B} (P : A -> B -> Prop) (a : list A) (b : list B) :
  List.length b = List.length a ->
  (forall j x, nth_error a j = Some x ->
     exists y, nth_error b j = Some y /\ P x y) ->
  Forall2 P a b.
Proof.
  revert b; induction a as [|x a IH]; intros [|y b] Hlen H;
    try discriminate; constructor.
  - destruct (H 0 x eq_refl) as (y' & Hy & Hp). now injection Hy as <-.
  - apply IH; [cbn in Hlen; lia|]. intros j x' Hj. exact (H (S j) x' Hj).
Qed.

(** X7.  For a map whose rebuilt keys are distinct, the map of field
    identifiers that field resolution returns has one entry per key of
    the map, in the order of the keys, filed under the rebuilt key, and
    the entry of a key holds the identifier of a Field row that holds the
    type and name the key was split into. *)
Theorem ensureFieldIdMap_has_one_entry_per_key c sched self m db f db' :
  _client self = Some c ->
  NoDup (map rebuilt_key (Object_keys m)) ->
  run (ensureFieldIdMap sched self m) db = (inr f, db') ->
  Object_keys f = map rebuilt_key (Object_keys m)
  /\ exists ids,
       Object_values f = map Some ids
       /\ Forall2 (fun key i =>
                     In (stored i
                           (FieldModel.mk (fst (typeFieldPair key))
                              (snd (typeFieldPair key))))
                        (Tables.Fields db'))
                  (Object_keys m) ids.
Proof.
  intros Hc Hnd Hrun.
  destruct (ensureFieldIdMap_shape _ _ _ _ _ _ Hrun) as (ids & Hall & ->).
  assert (Hnd' : NoDup (map typeFieldPair (Object_keys m))).
  { rewrite <- rebuilt_keys in Hnd. now apply NoDup_map_inv in Hnd. }
  destruct (all_ensureFieldId_resolved c self sched _ db db' ids Hc Hnd' Hall)
    as [Hlen Hres].
  rewrite <- rebuilt_keys in Hnd.
  destruct (fieldIdMap_of_distinct _ ids Hnd Hlen) as [Hk Hv].
  rewrite Hk, rebuilt_keys. split; [reflexivity|].
  exists ids. split; [exact Hv|].
  apply Forall2_pointwise; [now rewrite Hlen, length_map|].
  intros j key Hj.
  assert (Hj' : nth_error (map typeFieldPair (Object_keys m)) j
                = Some (typeFieldPair key)) by (now rewrite nth_error_map, Hj).
  destruct (Hres j _ Hj') as (i & Hi & Hr).
  exists i. split; [exact Hi|]. now apply resolved_row with db.
Qed.

Section Links.

Variable operationSignature : option string -> option string -> Exn + string.
Variable normalizeTraceNode : TraceNode.t -> NormalizedTraceNodeMap.

(** X8.  The first write of an operation, for a trace whose rebuilt keys
    are distinct, inserts exactly one OperationField row per key of the
    normalized map, in the order of the keys: each links the identifier of
    a Field row that holds the type and name of the key to the identifier
    of the Operation row this write inserted. *)
Theorem first_sighting_links_every_key sched self trace db db' signature :
  run (writeTrace operationSignature normalizeTraceNode sched self trace) db
  = (inr tt, db') ->
  operationSignature (Trace.query trace) (Trace.operationName trace)
  = inr signature ->
  known signature db = false ->
  NoDup (map rebuilt_key (Object_keys (normalizeTraceNode (Trace.entry trace)))) ->
  exists ids,
    Forall2 (fun key i =>
               In (stored i
                     (FieldModel.mk (fst (typeFieldPair key))
                        (snd (typeFieldPair key))))
                  (Tables.Fields db'))
            (Object_keys (normalizeTraceNode (Trace.entry trace))) ids
    /\ Tables.OperationsFields db'
       = Tables.OperationsFields db
           ++ map (fun i =>
                     OperationFieldModel.mk (Some i)
                       (next_id (Tables.Operations db)))
                  ids
    /\ In (stored (next_id (Tables.Operations db))
             (OperationModel.mk (Trace.query trace)
                (Trace.operationName trace) signature))
          (Tables.Operations db').
Proof.
  intros Hrun Hs Hk Hnd.
  destruct (writeTrace_ok_inv _ _ _ _ _ _ _ Hrun) as [[c Hc] _].
  destruct (writeTrace_ok _ _ _ _ _ _ _ Hrun)
    as (signature' & fieldIdMap & dbf & Hs' & Hf & Hg & ->).
  assert (signature' = signature) as -> by congruence.
  destruct (ensureFieldIdMap_has_one_entry_per_key c _ _ _ _ _ _ Hc Hnd Hf)
    as (_ & ids & Hv & Hrows).
  exists ids. split; [exact Hrows|].
  destruct (resolved_operation_traces signature trace db) as (_ & _ & _ & R4).
  pose proof (resolved_operation_operations signature trace db) as Hops.
  destruct Hg as (G1 & G2 & _).
  assert (Hid : fst (resolved_operation signature trace db)
                = next_id (Tables.Operations db)).
  { unfold resolved_operation. rewrite known_hd_error in Hk.
    destruct (hd_error _); [discriminate | reflexivity]. }
  unfold written. cbn [Tables.OperationsFields Tables.Operations].
  rewrite Hk, G2, R4, G1, Hops, Hk, Hid, Hv, map_map. cbn [negb].
  split; [reflexivity|].
  apply in_or_app. right. now left.
Qed.

End Links.

(** ** One field in two traces *)


Section Sharing.

Variable operationSignature : option string -> option string -> Exn + string.
Variable normalizeTraceNode : TraceNode.t -> NormalizedTraceNodeMap.


End Sharing.

(** ** One OperationTrace row per trace, however the writes interleave *)

Lemma Owes_bind (n n' : nat) {A B} (m : Prog A) (f : A -> Prog B) :
  Owes n m -> (forall a, Owes n' (f a)) -> Owes (n + n') (bind m f).
Proof.
  revert n; induction m as [a|e|R q k IH]; intros n Hm Hf; cbn in *.
  - subst n. apply Hf.
  - exact I.
  - destruct Hm as [Hq Hk]. split; [intros H; specialize (Hq H); lia|].
    intros r. specialize (Hk r).
    destruct (is_trace_insert q) eqn:Hi.
    + specialize (Hq eq_refl).
      replace (n + n' - 1) with (n - 1 + n') by lia. now apply IH.
    + replace (n + n' - 0) with (n - 0 + n') by lia. now apply IH.
Qed.

Lemma Owes_Safe_fields ps (T : Exn -> Prop) {A} (p : Prog A) :
  Safe (field_request ps) T p -> Owes 0 p.
Proof.
  induction p as [a|e|R q k IH]; cbn; auto.
  intros [Hq Hk]. split.
  - destruct q; cbn in *; try contradiction; discriminate.
  - intros r. cbn [Nat.sub]. now apply IH.
Qed.

Lemma Owes_await {R} (q : Req R) :
  Owes (if is_trace_insert q then 1 else 0) (await q).
Proof.
  cbn. split; [intros ->; lia|].
  intros r. destruct (is_trace_insert q); reflexivity.
Qed.

Section OneOperationTrace.

Variable operationSignature : option string -> option string -> Exn + string.
Variable normalizeTraceNode : TraceNode.t -> NormalizedTraceNodeMap.

(** A trace write inserts exactly one OperationTrace row before it
    returns. *)
Lemma Owes_writeTrace sched self trace :
  Owes 1 (writeTrace operationSignature normalizeTraceNode sched self trace).
Proof.
  unfold writeTrace.
  destruct (operationSignature _ _) as [e|signature]; [exact I|].
  cbn [attempt bind].
  destruct (_client self) as [c|] eqn:Hc;
    [|unfold client; rewrite Hc; exact I].
  assert (Hcl : Owes 0 (client self)) by (unfold client; now rewrite Hc).
  assert (He : forall m, Owes 0 (ensureFieldIdMap sched self m)).
  { intros m. eapply Owes_Safe_fields. eapply Safe_ensureFieldIdMap; eauto. }
  apply (Owes_bind 0 1); [exact Hcl | intros _].
  apply (Owes_bind 0 1); [apply (Owes_await (SelectOperationIds signature)) | intros found].
  apply (Owes_bind 0 1); [|intros operationId].
  { destruct (hd_error found); [reflexivity|].
    apply (Owes_bind 0 0); [exact Hcl | intros _].
    apply (Owes_await (InsertOperation _)). }
  apply (Owes_bind 0 1); [apply He | intros fieldIdMap].
  apply (Owes_bind 0 1); [|intros _].
  { destruct (hd_error found); [reflexivity|].
    apply (Owes_bind 0 0); [exact Hcl | intros _].
    apply (Owes_await (InsertOperationsFields _)). }
  apply (Owes_bind 0 1); [exact Hcl | intros _].
  apply (Owes_bind 1 0); [apply (Owes_await (InsertOperationTrace _)) | intros operationTraceId].
  apply (Owes_bind 0 0); [exact Hcl | intros _].
  apply (Owes_bind 0 0); [apply (Owes_await (InsertFieldTraces _)) | intros fieldTraceIds].
  apply (Owes_bind 0 0); [|intros _].
  { destruct (TraceNode.errors (Trace.entry trace)); [reflexivity|].
    apply (Owes_bind 0 0); [exact Hcl | intros _].
    apply (Owes_await (InsertErrors _)). }
  apply (Owes_bind 0 0); [exact Hcl | intros _].
  apply (Owes_await (InsertErrors _)).
Qed.

End OneOperationTrace.

Lemma exec_trace_insert {R} (q : Req R) (db : Tables.t) :
  List.length (Tables.OperationTraces (snd (exec q db)))
  = List.length (Tables.OperationTraces db)
    + (if is_trace_insert q then 1 else 0).
Proof.
  destruct db as [ops flds ofs ots fts errs].
  destruct q; cbn; try lia.
  - rewrite length_app. cbn. lia.
  - destruct (insert_rows fts rows). cbn. lia.
Qed.

Lemma Forall2_nth_right {A B} (P : A -> B -> Prop) (a : list A) (b : list B)
    (i : nat) (y : B) :
  Forall2 P a b -> nth_error b i = Some y ->
  exists x, nth_error a i = Some x /\ P x y.
Proof.
  intros H; revert i; induction H as [|x y' a b Hp _ IH]; intros [|i] Hi;
    cbn in *; try discriminate.
  - injection Hi as ->. eauto.
  - now apply IH.
Qed.

Lemma Forall2_set_nth {A B} (P : A -> B -> Prop) (a : list A) (b : list B)
    (i : nat) (x : A) (y : B) :
  Forall2 P a b -> P x y -> Forall2 P (set_nth i x a) (set_nth i y b).
Proof.
  intros H Hxy; revert i; induction H as [|x' y' a b Hp Hab IH]; intros [|i];
    cbn; constructor; auto.
Qed.

Lemma list_sum_set_nth (ns : list nat) (i n m : nat) :
  nth_error ns i = Some n ->
  list_sum (set_nth i m ns) + n = list_sum ns + m.
Proof.
  unfold list_sum.
  revert i; induction ns as [|x ns IH]; intros [|i] Hi; cbn in *;
    try discriminate.
  - injection Hi as ->. lia.
  - specialize (IH i Hi). lia.
Qed.

(** The OperationTrace rows of the store and those the tasks have still
    to insert add up to one per task. *)
Lemma pool_step_owes (total : nat) (i : nat) (p : Pool.t) :
  (exists ns,
     Forall2 (fun n t => Owes n t) ns (Pool.tasks p)
     /\ List.length (Tables.OperationTraces (Pool.store p)) + list_sum ns = total) ->
  exists ns,
    Forall2 (fun n t => Owes n t) ns (Pool.tasks (pool_step i p))
    /\ List.length (Tables.OperationTraces (Pool.store (pool_step i p)))
       + list_sum ns = total.
Proof.
  intros (ns & Hall & Hsum). unfold pool_step.
  destruct (nth_error (Pool.tasks p) i) as [t|] eqn:Hn; [|eauto].
  destruct t as [a|e|R q k]; eauto.
  destruct (Forall2_nth_right _ _ _ _ _ Hall Hn) as (n & Hni & [Hq Hk]).
  pose proof (exec_trace_insert q (Pool.store p)) as Hlen.
  destruct (exec q (Pool.store p)) as [r db']. cbn [snd] in Hlen.
  cbn [Pool.tasks Pool.store].
  exists (set_nth i (n - (if is_trace_insert q then 1 else 0)) ns). split.
  - apply Forall2_set_nth; [exact Hall | apply Hk].
  - pose proof (list_sum_set_nth ns i n
                  (n - (if is_trace_insert q then 1 else 0)) Hni) as Hs.
    destruct (is_trace_insert q); [specialize (Hq eq_refl)|]; lia.
Qed.

Lemma pool_run_owes (total : nat) (sched : list nat) (p : Pool.t) :
  (exists ns,
     Forall2 (fun n t => Owes n t) ns (Pool.tasks p)
     /\ List.length (Tables.OperationTraces (Pool.store p)) + list_sum ns = total) ->
  exists ns,
    Forall2 (fun n t => Owes n t) ns (Pool.tasks (pool_run sched p))
    /\ List.length (Tables.OperationTraces (Pool.store (pool_run sched p)))
       + list_sum ns = total.
Proof.
  unfold pool_run. revert p; induction sched as [|i sched IH]; intros p H; cbn; auto.
  apply IH. now apply pool_step_owes.
Qed.

Lemma Forall2_returned (ns : list nat) (ts : list (Prog unit)) :
  Forall2 (fun n t => Owes n t) ns ts ->
  Forall (fun t => t = Ret tt) ts -> list_sum ns = 0.
Proof.
  induction 1 as [|n t ns ts Hn _ IH]; intros Hr; cbn; auto.
  inversion Hr as [|? ? Ht Hts]; subst. cbn in Hn. subst n. now apply IH.
Qed.

Section OneOperationTracePerTrace.

Variable operationSignature : option string -> option string -> Exn + string.
Variable normalizeTraceNode : TraceNode.t -> NormalizedTraceNodeMap.

(** X10.  In whatever order the store serves the interleaved writes of a
    report, it never holds more new OperationTrace rows than the report
    has traces, and once the promise of [writeReport] is fulfilled it
    holds exactly one new OperationTrace row per trace. *)
Theorem report_inserts_one_operation_trace_per_trace
    scheds self report db sched :
  let p := pool_run sched
             (writeReport operationSignature normalizeTraceNode
                scheds self report db) in
  List.length (Tables.OperationTraces (Pool.store p))
  <= List.length (Tables.OperationTraces db) + List.length (Report.traces report)
  /\ (Pool.promise p = Some (inr tt) ->
      List.length (Tables.OperationTraces (Pool.store p))
      = List.length (Tables.OperationTraces db)
        + List.length (Report.traces report)).
Proof.
  intros p.
  assert (Hstart : exists ns,
             Forall2 (fun n t => Owes n t) ns
               (Pool.tasks (writeReport operationSignature normalizeTraceNode
                              scheds self report db))
             /\ List.length
                  (Tables.OperationTraces
                     (Pool.store (writeReport operationSignature normalizeTraceNode
                                    scheds self report db)))
                + list_sum ns
                = List.length (Tables.OperationTraces db)
                  + List.length (Report.traces report)).
  { unfold writeReport, mapi. cbn [Pool.tasks Pool.store].
    generalize 0. induction (Report.traces report) as [|t ts IH]; intros i.
    - exists []. split; [constructor | cbn; lia].
    - destruct (IH (S i)) as (ns & Hall & Hsum).
      exists (1 :: ns). split.
      + cbn [mapi_from]. constructor; [apply Owes_writeTrace | exact Hall].
      + unfold list_sum in *. cbn [fold_right List.length] in *. lia. }
  destruct (pool_run_owes _ sched _ Hstart) as (ns & Hall & Hsum).
  fold p in Hall, Hsum. split; [lia|].
  intros Hp.
  assert (Hagree : promise_agrees p)
    by (apply pool_run_agrees; unfold writeReport; apply promise_agrees_settle).
  unfold promise_agrees in Hagree. rewrite Hp in Hagree.
  rewrite (Forall2_returned _ _ Hall Hagree) in Hsum. lia.
Qed.

End OneOperationTracePerTrace.

(** ** Every error of a trace is inserted *)

Lemma has_errors_false (node : NormalizedTraceNode.t) :
  has_errors node = false -> NormalizedTraceNode.errors node = [].
Proof.
  unfold has_errors. destruct (NormalizedTraceNode.errors node); cbn;
    [reflexivity | discriminate].
Qed.

Lemma field_errors_messages (ids : list Z) (l : list NormalizedTraceNode.t) :
  forall i,
    map (fun e => (ErrorModel.message e, ErrorModel.json e))
        (flatten (mapi_from i (fieldErrors_of ids) l))
    = map (fun e => (TraceError.message e, TraceError.json e))
          (flat_map NormalizedTraceNode.errors l).
Proof.
  unfold flatten.
  induction l as [|node l IH]; intros i; cbn [mapi_from flat_map]; auto.
  rewrite concat_cons, !map_app, IH. f_equal.
  unfold fieldErrors_of. rewrite map_map. reflexivity.
Qed.

Lemma flat_map_errors_filter (l : list NormalizedTraceNode.t) :
  flat_map NormalizedTraceNode.errors (filter has_errors l)
  = flat_map NormalizedTraceNode.errors l.
Proof.
  induction l as [|node l IH]; cbn; auto.
  destruct (has_errors node) eqn:H; cbn; rewrite IH; auto.
  now rewrite (has_errors_false _ H).
Qed.

Section EveryError.

Variable operationSignature : option string -> option string -> Exn + string.
Variable normalizeTraceNode : TraceNode.t -> NormalizedTraceNodeMap.

(** X11.  A trace write that returns has inserted one Error row per error
    of the trace, none twice and none left out: the messages and the
    payloads of the rows it added are those of the errors of the root
    entry, followed by those of the errors of the nodes in the order of
    the flat sequence. *)
Theorem every_error_is_inserted_once sched self trace db db' :
  run (writeTrace operationSignature normalizeTraceNode sched self trace) db
  = (inr tt, db') ->
  map (fun r => (ErrorModel.message (cols r), ErrorModel.json (cols r)))
      (skipn (List.length (Tables.Errors db)) (Tables.Errors db'))
  = map (fun e => (TraceError.message e, TraceError.json e))
        (TraceNode.errors (Trace.entry trace)
           ++ flat_map NormalizedTraceNode.errors
                (flatten (Object_values (normalizeTraceNode (Trace.entry trace))))).
Proof.
  intros Hrun.
  destruct (writeTrace_ok _ _ _ _ _ _ _ Hrun)
    as (signature & fieldIdMap & dbf & Hs & Hf & Hg & ->).
  destruct (resolved_operation_traces signature trace db) as (_ & _ & R3 & _).
  destruct Hg as (_ & _ & _ & _ & G5 & _).
  unfold written. cbn [Tables.Errors]. rewrite G5, R3.
  rewrite skipn_app, skipn_all, Nat.sub_diag. cbn [skipn app].
  rewrite <- (map_map (@cols _)
                (fun e => (ErrorModel.message e, ErrorModel.json e))).
  rewrite !map_app. unfold operationError_rows, fieldError_rows.
  rewrite !number_from_cols. f_equal.
  - rewrite map_map. reflexivity.
  - unfold mapi. rewrite field_errors_messages. now rewrite flat_map_errors_filter.
Qed.

End EveryError.

(* ================================================================== *)
(** * The further properties on concrete traces *)

Lemma no_dupb_NoDup (l : list string) : no_dupb l = true -> NoDup l.
Proof.
  induction l as [|x l IH]; cbn; [constructor|].
  intros H. apply andb_prop in H as [Hx Hl]. constructor; auto.
  intros Hin. apply negb_true_iff in Hx.
  assert (Ht : existsb (String.eqb x) l = true)
    by (apply existsb_exists; exists x; split; auto; apply String.eqb_refl).
  congruence.
Qed.

Lemma concurrent_first_sightings_example :
  _client Example.adapter = Some (knex "pg" "postgres://localhost/traces")
  /\ Normalize.operationSignature (Trace.query Example.trace)
       (Trace.operationName Example.trace)
     = inr "Q#query Q { user { name } }"
  /\ known "Q#query Q { user { name } }" Tables.empty = false
  /\ map (fun r => (id r, OperationModel.signature (cols r)))
         (Tables.Operations
            (Pool.store
               (pool_run [0; 1; 0; 1]
                  (writeReport Normalize.operationSignature
                     Normalize.normalizeTraceNode (fun _ => []) Example.adapter
                     (Report.mk [Example.trace; Example.trace]) Tables.empty))))
     = [(1%Z, "Q#query Q { user { name } }"); (2%Z, "Q#query Q { user { name } }")].
Proof.
  assert (H1 : _client Example.adapter = Some (knex "pg" "postgres://localhost/traces"))
    by reflexivity.
  assert (H2 : Normalize.operationSignature (Trace.query Example.trace)
                 (Trace.operationName Example.trace)
               = inr "Q#query Q { user { name } }") by reflexivity.
  assert (H3 : known "Q#query Q { user { name } }" Tables.empty = false)
    by reflexivity.
  split; [exact H1|]. split; [exact H2|]. split; [exact H3|].
  rewrite (concurrent_first_sightings_insert_the_operation_twice
             Normalize.operationSignature Normalize.normalizeTraceNode
             (fun _ => []) Example.adapter
             (knex "pg" "postgres://localhost/traces")
             Example.trace Example.trace "Q#query Q { user { name } }"
             Tables.empty H1 H2 H2 H3).
  reflexivity.
Defined.

Lemma ensureFieldIdMap_again_example :
  let m := Normalize.normalizeTraceNode Example.entry in
  let r1 := run (ensureFieldIdMap [1; 1] Example.adapter m) Tables.empty in
  let r2 := run (ensureFieldIdMap [0; 1] Example.adapter m) (snd r1) in
  _client Example.adapter = Some (knex "pg" "postgres://localhost/traces")
  /\ NoDup (map rebuilt_key (Object_keys m))
  /\ r1 = (inr [("Query.user", Some 2%Z); ("User.name", Some 1%Z)], snd r1)
  /\ r2 = (inr [("Query.user", Some 2%Z); ("User.name", Some 1%Z)], snd r2)
  /\ snd r2 = snd r1.
Proof.
  intros m r1 r2.
  assert (H1 : _client Example.adapter = Some (knex "pg" "postgres://localhost/traces"))
    by reflexivity.
  assert (H2 : NoDup (map rebuilt_key (Object_keys m)))
    by (apply no_dupb_NoDup; reflexivity).
  assert (H3 : r1 = (inr [("Query.user", Some 2%Z); ("User.name", Some 1%Z)], snd r1))
    by (vm_compute; reflexivity).
  assert (H4 : r2 = (inr [("Query.user", Some 2%Z); ("User.name", Some 1%Z)], snd r2))
    by (vm_compute; reflexivity).
  split; [exact H1|]. split; [exact H2|]. split; [exact H3|]. split; [exact H4|].
  exact (proj2 (ensureFieldIdMap_again_changes_nothing
                  (knex "pg" "postgres://localhost/traces") [1; 1] [0; 1]
                  Example.adapter m Tables.empty _ (snd r1) _ (snd r2)
                  H1 H2 H3 H4)).
Defined.

Lemma field_trace_refers_example :
  let w := writeTrace Normalize.operationSignature Normalize.normalizeTraceNode
             [] Example.adapter Example.trace in
  let db' := snd (run w Tables.empty) in
  run w Tables.empty = (inr tt, db')
  /\ NoDup (map rebuilt_key (Object_keys (Normalize.normalizeTraceNode Example.entry)))
  /\ nth_error (flatten (Object_values (Normalize.normalizeTraceNode Example.entry))) 1
     = Some Further.name_of_user
  /\ exists r i,
       nth_error (Tables.FieldTraces db') 1 = Some r
       /\ FieldTraceModel.path (cols r) = "user.name"
       /\ FieldTraceModel.fieldId (cols r) = Some i
       /\ In (stored i (FieldModel.mk "User" (Some "name"))) (Tables.Fields db').
Proof.
  intros w db'.
  assert (H1 : run w Tables.empty = (inr tt, db')) by (vm_compute; reflexivity).
  assert (H2 : NoDup (map rebuilt_key
                        (Object_keys (Normalize.normalizeTraceNode Example.entry))))
    by (apply no_dupb_NoDup; reflexivity).
  assert (H3 : nth_error (flatten (Object_values
                                     (Normalize.normalizeTraceNode Example.entry))) 1
               = Some Further.name_of_user) by reflexivity.
  split; [exact H1|]. split; [exact H2|]. split; [exact H3|].
  apply (field_trace_refers_to_the_field_of_its_node
           Normalize.operationSignature Normalize.normalizeTraceNode
           [] Example.adapter Example.trace Tables.empty db' 1
           Further.name_of_user H1 H2 H3).
  - cbn. tauto.
  - reflexivity.
  - reflexivity.
Defined.

Lemma field_trace_of_dotted_name_example :
  let w := writeTrace Normalize.operationSignature Normalize.normalizeTraceNode
             [] Example.adapter Further.dotted_trace in
  let db' := snd (run w Tables.empty) in
  run w Tables.empty = (inr tt, db')
  /\ nth_error (flatten (Object_values
                           (Normalize.normalizeTraceNode Further.dotted_entry))) 0
     = Some Further.dotted_node
  /\ exists r,
       nth_error (Tables.FieldTraces db') 0 = Some r
       /\ FieldTraceModel.path (cols r) = "b.c"
       /\ FieldTraceModel.fieldId (cols r) = None.
Proof.
  intros w db'.
  assert (H1 : run w Tables.empty = (inr tt, db')) by (vm_compute; reflexivity).
  assert (H2 : nth_error (flatten (Object_values
                                     (Normalize.normalizeTraceNode Further.dotted_entry))) 0
               = Some Further.dotted_node) by reflexivity.
  split; [exact H1|]. split; [exact H2|].
  apply (field_trace_of_dotted_name_has_no_field
           Normalize.operationSignature Normalize.normalizeTraceNode
           [] Example.adapter Further.dotted_trace Tables.empty db' 0
           Further.dotted_node H1 H2).
  reflexivity.
Defined.

Lemma ensureFieldIdMap_entries_example :
  let m := Normalize.normalizeTraceNode Example.entry in
  let r := run (ensureFieldIdMap [1; 1] Example.adapter m) Tables.empty in
  _client Example.adapter = Some (knex "pg" "postgres://localhost/traces")
  /\ NoDup (map rebuilt_key (Object_keys m))
  /\ r = (inr [("Query.user", Some 2%Z); ("User.name", Some 1%Z)], snd r)
  /\ Object_keys [("Query.user", Some 2%Z); ("User.name", Some 1%Z)]
     = map rebuilt_key (Object_keys m).
Proof.
  intros m r.
  assert (H1 : _client Example.adapter = Some (knex "pg" "postgres://localhost/traces"))
    by reflexivity.
  assert (H2 : NoDup (map rebuilt_key (Object_keys m)))
    by (apply no_dupb_NoDup; reflexivity).
  assert (H3 : r = (inr [("Query.user", Some 2%Z); ("User.name", Some 1%Z)], snd r))
    by (vm_compute; reflexivity).
  split; [exact H1|]. split; [exact H2|]. split; [exact H3|].
  exact (proj1 (ensureFieldIdMap_has_one_entry_per_key
                  (knex "pg" "postgres://localhost/traces") [1; 1]
                  Example.adapter m Tables.empty _ (snd r) H1 H2 H3)).
Defined.

Lemma first_sighting_links_example :
  let w := writeTrace Normalize.operationSignature Normalize.normalizeTraceNode
             [] Example.adapter Example.trace in
  let db' := snd (run w Tables.empty) in
  run w Tables.empty = (inr tt, db')
  /\ known "Q#query Q { user { name } }" Tables.empty = false
  /\ NoDup (map rebuilt_key (Object_keys (Normalize.normalizeTraceNode Example.entry)))
  /\ exists ids,
       List.length ids = 2
       /\ Tables.OperationsFields db'
          = map (fun i => OperationFieldModel.mk (Some i) 1%Z) ids.
Proof.
  intros w db'.
  assert (H1 : run w Tables.empty = (inr tt, db')) by (vm_compute; reflexivity).
  assert (H2 : known "Q#query Q { user { name } }" Tables.empty = false)
    by reflexivity.
  assert (H3 : NoDup (map rebuilt_key
                        (Object_keys (Normalize.normalizeTraceNode Example.entry))))
    by (apply no_dupb_NoDup; reflexivity).
  split; [exact H1|]. split; [exact H2|]. split; [exact H3|].
  destruct (first_sighting_links_every_key
              Normalize.operationSignature Normalize.normalizeTraceNode
              [] Example.adapter Example.trace Tables.empty db'
              "Q#query Q { user { name } }" H1 eq_refl H2 H3)
    as (ids & Hrows & Hlinks & _).
  exists ids. split; [|exact Hlinks].
  apply Forall2_length in Hrows. now rewrite <- Hrows.
Defined.


Lemma node_errors_by_rank_example :
  let w := writeTrace Normalize.operationSignature Normalize.normalizeTraceNode
             [] Example.adapter Example.trace in
  let db' := snd (run w Tables.empty) in
  run w Tables.empty = (inr tt, db')
  /\ map (@cols _) (Tables.Errors db')
     = [ErrorModel.mk None (Some 1%Z) "boom" "{}"].
Proof.
  intros w db'.
  assert (H1 : run w Tables.empty = (inr tt, db')) by (vm_compute; reflexivity).
  split; [exact H1|].
  exact (writeTrace_node_errors_by_rank
           Normalize.operationSignature Normalize.normalizeTraceNode
           [] Example.adapter Example.trace Tables.empty db' H1).
Defined.

Lemma every_error_example :
  let w := writeTrace Normalize.operationSignature Normalize.normalizeTraceNode
             [] Example.adapter Example.trace in
  let db' := snd (run w Tables.empty) in
  run w Tables.empty = (inr tt, db')
  /\ map (fun r => (ErrorModel.message (cols r), ErrorModel.json (cols r)))
         (Tables.Errors db')
     = [("boom", "{}")].
Proof.
  intros w db'.
  assert (H1 : run w Tables.empty = (inr tt, db')) by (vm_compute; reflexivity).
  split; [exact H1|].
  exact (every_error_is_inserted_once
           Normalize.operationSignature Normalize.normalizeTraceNode
           [] Example.adapter Example.trace Tables.empty db' H1).
Defined.

(* ================================================================== *)
(** * The rows of one trace write *)

Section TraceRows.

Variable operationSignature : option string -> option string -> Exn + string.
Variable normalizeTraceNode : TraceNode.t -> NormalizedTraceNodeMap.




End TraceRows.

